(** * A shallow embedding of the CPP-RayTracer-IOW path tracer

    The C++ sources vec3.hpp, ray.hpp, hittable.hpp, sphere.hpp,
    hittable_list.hpp, material.hpp and rtweekend.hpp are translated
    function by function, and so are camera.hpp and main.cpp: the
    integrator [ray_color], the scene generator [random_scene] and the
    render loops of [main] with the colour processing of a pixel.  Of what
    [main] prints, the triples of the image are modelled; the header, the
    progress messages and the timing are not.

    Numbers.  A C++ [double] is modelled by a real number of [R]: the
    specification's data model speaks of "real components", and the
    properties below are statements of real arithmetic and of control flow.
    Rounding, NaN and signed zeros are outside the model; division is the
    total division of [R].  The one non-finite value the program uses, the
    constant [infinity] handed to [hit] as upper bound, is kept: an upper
    bound is a value of [ebound].  Where a property is an exact equality
    that rounding breaks, the operations it involves are also given on
    binary64 numbers, in module [B64], and evaluated there.

    Out-parameters.  A C++ reference parameter that the callee may write
    ([hit_record& rec], [color& attenuation], [ray& scattered]) is passed in
    and returned: the callee's result carries the value the caller sees
    afterwards.

    Randomness.  [rand()] reads the process-wide generator; its state is
    threaded explicitly.  The two rejection loops ([while (true)]) take a
    number of rounds they may use and stop with [rounds_exhausted] when it
    is used up. *)

From Stdlib Require Import Reals Lra Lia ZArith List Permutation Bool.
From Stdlib Require Floats.
Import ListNotations.

Open Scope R_scope.

Set Warnings "-register-all,-inexact-float".

(** ** rtweekend.hpp: comparisons and [clamp] *)

(** [a < b] and [a > b] on doubles, as the conditions of [if] and [?:]. *)
Definition ltb (a b : R) : bool := if Rlt_dec a b then true else false.
Definition gtb (a b : R) : bool := ltb b a.

(** An upper bound of a search range: a double, or the constant
    [infinity] of rtweekend.hpp. *)
Inductive ebound : Type :=
| Finite (m : R)
| infinity.

(** [root > t_max] where [t_max] may be [infinity]. *)
Definition gtb_bound (a : R) (b : ebound) : bool :=
  match b with
  | Finite m => gtb a m
  | infinity => false
  end.

(** [a <= b] for an upper bound [b], as a proposition. *)
Definition le_bound (a : R) (b : ebound) : Prop :=
  match b with
  | Finite m => a <= m
  | infinity => True
  end.

Definition clamp (x min max : R) : R :=
  if ltb x min then min
  else if gtb x max then max
  else x.

(** ** vec3.hpp *)

Record vec3 : Type := Vec3 { e0 : R; e1 : R; e2 : R }.

Definition point3 := vec3.
Definition color := vec3.

Definition vec3_x (v : vec3) : R := e0 v.
Definition vec3_y (v : vec3) : R := e1 v.
Definition vec3_z (v : vec3) : R := e2 v.

Definition vec3_neg (v : vec3) : vec3 := Vec3 (- e0 v) (- e1 v) (- e2 v).
Definition vec3_add (u v : vec3) : vec3 :=
  Vec3 (e0 u + e0 v) (e1 u + e1 v) (e2 u + e2 v).
Definition vec3_sub (u v : vec3) : vec3 :=
  Vec3 (e0 u - e0 v) (e1 u - e1 v) (e2 u - e2 v).
Definition vec3_mul (u v : vec3) : vec3 :=
  Vec3 (e0 u * e0 v) (e1 u * e1 v) (e2 u * e2 v).
Definition vec3_scale (k : R) (v : vec3) : vec3 :=
  Vec3 (k * e0 v) (k * e1 v) (k * e2 v).
Definition vec3_div (v : vec3) (k : R) : vec3 := vec3_scale (1 / k) v.

Declare Scope vec3_scope.
Delimit Scope vec3_scope with vec3.
Bind Scope vec3_scope with vec3.
Infix "+^" := vec3_add (at level 50, left associativity) : vec3_scope.
Infix "-^" := vec3_sub (at level 50, left associativity) : vec3_scope.
Infix "**" := vec3_mul (at level 40, left associativity) : vec3_scope.
Infix "*^" := vec3_scale (at level 40, left associativity) : vec3_scope.
Infix "/^" := vec3_div (at level 40, left associativity) : vec3_scope.
Open Scope vec3_scope.

Definition length_squared (v : vec3) : R :=
  e0 v * e0 v + e1 v * e1 v + e2 v * e2 v.
Definition length (v : vec3) : R := sqrt (length_squared v).

Definition near_zero (v : vec3) : bool :=
  let s := 1 / 100000000 in
  ltb (Rabs (e0 v)) s && ltb (Rabs (e1 v)) s && ltb (Rabs (e2 v)) s.

Definition dot (u v : vec3) : R :=
  e0 u * e0 v + e1 u * e1 v + e2 u * e2 v.

Definition cross (u v : vec3) : vec3 :=
  Vec3 (e1 u * e2 v - e2 u * e1 v)
       (e2 u * e0 v - e0 u * e2 v)
       (e0 u * e1 v - e1 u * e0 v).

Definition unit_vector (v : vec3) : vec3 := v /^ length v.

Definition reflect (v n : vec3) : vec3 := v -^ (2 * dot v n) *^ n.

Definition refract (uv n : vec3) (etai_over_etat : R) : vec3 :=
  let cos_theta := Rmin (dot (vec3_neg uv) n) 1 in
  let r_out_perp := etai_over_etat *^ (uv +^ cos_theta *^ n) in
  let r_out_parallel :=
    (- sqrt (Rabs (1 - length_squared r_out_perp))) *^ n in
  r_out_perp +^ r_out_parallel.

(** ** ray.hpp *)

Record ray : Type := Ray { orig : point3; dir : vec3 }.

Definition origin (r : ray) : point3 := orig r.
Definition direction (r : ray) : vec3 := dir r.
Definition ray_at (r : ray) (k : R) : point3 := orig r +^ k *^ dir r.

(** ** material.hpp: the three materials *)

Record lambertian : Type := Lambertian { lambertian_albedo : color }.
Record metal : Type := Metal { albedo : color; fuzz : R }.
Record dielectric : Type := Dielectric { ir : R }.

(** The constructor [metal(const color& a, double f)], with its member
    initialisers [albedo(a), fuzz(f < 1 ? f : 1)]. *)
Definition metal_new (a : color) (f : R) : metal :=
  {| albedo := a; fuzz := if ltb f 1 then f else 1 |}.

(** The classes derived from [material]. *)
Inductive material : Type :=
| MLambertian (m : lambertian)
| MMetal (m : metal)
| MDielectric (m : dielectric).

(** A [shared_ptr<material>]: null, or a material. *)
Definition material_ptr := option material.

(** ** hittable.hpp *)

Record hit_record : Type := HitRecord {
  p : point3;
  normal : vec3;
  mat_ptr : material_ptr;
  t : R;
  front_face : bool
}.

Definition set_face_normal (rec : hit_record) (r : ray) (outward_normal : vec3)
  : hit_record :=
  let ff := ltb (dot (direction r) outward_normal) 0 in
  {| p := p rec;
     normal := if ff then outward_normal else vec3_neg outward_normal;
     mat_ptr := mat_ptr rec;
     t := t rec;
     front_face := ff |}.

(** ** sphere.hpp *)

Record sphere : Type := Sphere {
  center : point3;
  radius : R;
  sphere_mat_ptr : material_ptr
}.

(** The two range tests of [sphere::hit]:
    [root < t_min || root > t_max]. *)
Definition out_of_range (root t_min : R) (t_max : ebound) : bool :=
  ltb root t_min || gtb_bound root t_max.

(** The statements of [sphere::hit] after the comment "If we are here the
    ray hit the sphere". *)
Definition sphere_fill (s : sphere) (r : ray) (root : R) (rec : hit_record)
  : hit_record :=
  let rec1 := {| p := p rec; normal := normal rec; mat_ptr := mat_ptr rec;
                 t := root; front_face := front_face rec |} in
  let rec2 := {| p := ray_at r (t rec1); normal := normal rec1;
                 mat_ptr := mat_ptr rec1; t := t rec1;
                 front_face := front_face rec1 |} in
  let outward_normal := (p rec2 -^ center s) /^ radius s in
  let rec3 := set_face_normal rec2 r outward_normal in
  {| p := p rec3; normal := normal rec3; mat_ptr := sphere_mat_ptr s;
     t := t rec3; front_face := front_face rec3 |}.

(** [sphere::hit]: the result is the returned [bool] and the caller's
    record after the call. *)
Definition sphere_hit (s : sphere) (r : ray) (t_min : R) (t_max : ebound)
    (rec : hit_record) : bool * hit_record :=
  let oc := origin r -^ center s in
  let a := length_squared (direction r) in
  let half_b := dot oc (direction r) in
  let c := length_squared oc - radius s * radius s in
  let discriminant := half_b * half_b - a * c in
  if ltb discriminant 0 then (false, rec)
  else
    let sqrtd := sqrt discriminant in
    let root := (- half_b - sqrtd) / a in
    if out_of_range root t_min t_max then
      let root := (- half_b + sqrtd) / a in
      if out_of_range root t_min t_max then (false, rec)
      else (true, sphere_fill s r root rec)
    else (true, sphere_fill s r root rec).

(** ** hittable_list.hpp *)

(** The classes derived from [hittable]: a sphere, or a list of
    hittables (its [objects], in insertion order). *)
Inductive hittable : Type :=
| HSphere (s : sphere)
| HList (objects : list hittable).

(** A default-constructed [hit_record]: two zero vectors and a null
    material; [t] and [front_face] are not initialised by C++, the model
    fills them with 0 and false (no path reads them before a hit writes
    them). *)
Definition hit_record_default : hit_record :=
  {| p := Vec3 0 0 0; normal := Vec3 0 0 0; mat_ptr := None;
     t := 0; front_face := false |}.

(** The range-for of [hittable_list::hit], over the children still to
    visit; [hit_child] is the virtual call [object->hit] with the ray and
    [t_min] of the enclosing call. *)
Section HitLoop.
Variable hit_child : hittable -> ebound -> hit_record -> bool * hit_record.

Fixpoint hit_loop (objects : list hittable) (temp_rec : hit_record)
    (hit_anything : bool) (closest_so_far : ebound) (rec : hit_record)
    {struct objects} : bool * hit_record :=
  match objects with
  | [] => (hit_anything, rec)
  | object :: rest =>
      let (b, temp_rec') := hit_child object closest_so_far temp_rec in
      if b
      then hit_loop rest temp_rec' true (Finite (t temp_rec')) temp_rec'
      else hit_loop rest temp_rec' hit_anything closest_so_far rec
  end.
End HitLoop.

(** [hittable::hit], dispatched on the class of the object; for a list,
    the locals [temp_rec], [hit_anything] and [closest_so_far] start as in
    the source. *)
Fixpoint hit (h : hittable) (r : ray) (t_min : R) (t_max : ebound)
    (rec : hit_record) {struct h} : bool * hit_record :=
  match h with
  | HSphere s => sphere_hit s r t_min t_max rec
  | HList objects =>
      hit_loop (fun object closest_so_far temp_rec =>
                  hit object r t_min closest_so_far temp_rec)
               objects hit_record_default false t_max rec
  end.

(** [hittable_list::add] and [hittable_list::clear], on the [objects]
    vector. *)
Definition hittable_list_add (objects : list hittable) (object : hittable)
  : list hittable := objects ++ [object].
Definition hittable_list_clear (objects : list hittable) : list hittable := [].

(** ** rtweekend.hpp and vec3.hpp: the random source *)

(** Why a computation stops without a value. *)
Inductive failure : Type :=
| rounds_exhausted   (* a rejection loop used up the rounds it was given *)
| null_material      (* [rec.mat_ptr->scatter] on a null pointer *)
| depth_exhausted.   (* the recursion counter of [ray_color_rec] ran out *)

(** The state of the C library's generator: the values the next calls of
    [rand()] return, in order. *)
Definition rand_state := nat -> Z.

Definition rand (s : rand_state) : Z * rand_state :=
  (s O, fun n => s (S n)).

(** Computations that call [rand()] and may stop without a value. *)
Definition M (A : Type) : Type := rand_state -> failure + A * rand_state.

Definition ret {A : Type} (a : A) : M A := fun s => inr (a, s).
Definition fail {A : Type} (e : failure) : M A := fun _ => inl e.
Definition bind {A B : Type} (c : M A) (k : A -> M B) : M B :=
  fun s => match c s with
           | inl e => inl e
           | inr (a, s') => k a s'
           end.

Notation "x <- c ;; k" := (bind c (fun x => k))
  (at level 61, c at next level, right associativity).
Notation "' pat <- c ;; k" := (bind c (fun x => match x with pat => k end))
  (at level 61, pat pattern, c at next level, right associativity).

Section Rendering.

(** [RAND_MAX] of <cstdlib>, fixed by the C library. *)
Variable RAND_MAX : Z.

Definition random_double : M R :=
  fun s => let (n, s') := rand s in inr (IZR n / (IZR RAND_MAX + 1), s').

Definition random_double_range (min max : R) : M R :=
  u <- random_double ;; ret (min + (max - min) * u).

(** [vec3::random()] and [vec3::random(min,max)]; the three draws are taken
    left to right. *)
Definition vec3_random : M vec3 :=
  a <- random_double ;; b <- random_double ;; c <- random_double ;;
  ret (Vec3 a b c).

Definition vec3_random_range (min max : R) : M vec3 :=
  a <- random_double_range min max ;;
  b <- random_double_range min max ;;
  c <- random_double_range min max ;;
  ret (Vec3 a b c).

(** The rejection loop of [random_in_unit_sphere], given [rounds] rounds. *)
Fixpoint random_in_unit_sphere (rounds : nat) : M vec3 :=
  match rounds with
  | O => fail rounds_exhausted
  | S rounds' =>
      q <- vec3_random_range (-1) 1 ;;
      if negb (ltb (length_squared q) 1) then random_in_unit_sphere rounds'
      else ret q
  end.

Definition random_unit_vector (rounds : nat) : M vec3 :=
  q <- random_in_unit_sphere rounds ;; ret (unit_vector q).

Fixpoint random_in_unit_disk (rounds : nat) : M vec3 :=
  match rounds with
  | O => fail rounds_exhausted
  | S rounds' =>
      a <- random_double_range (-1) 1 ;;
      b <- random_double_range (-1) 1 ;;
      let q := Vec3 a b 0 in
      if negb (ltb (length_squared q) 1) then random_in_unit_disk rounds'
      else ret q
  end.

(** ** material.hpp: [scatter] *)

(** What a call of [scatter] leaves behind: the returned [bool], and the
    caller's [attenuation] and [scattered] after the call. *)
Definition scatter_result : Type := bool * color * ray.

Definition lambertian_scatter (rounds : nat) (m : lambertian)
    (r_in : ray) (rec : hit_record) (attenuation : color) (scattered : ray)
  : M scatter_result :=
  u <- random_unit_vector rounds ;;
  let scatter_direction := normal rec +^ u in
  let scatter_direction :=
    if near_zero scatter_direction then normal rec else scatter_direction in
  let scattered := Ray (p rec) scatter_direction in
  let attenuation := lambertian_albedo m in
  ret (true, attenuation, scattered).

Definition metal_scatter (rounds : nat) (m : metal)
    (r_in : ray) (rec : hit_record) (attenuation : color) (scattered : ray)
  : M scatter_result :=
  let reflected := reflect (unit_vector (direction r_in)) (normal rec) in
  q <- random_in_unit_sphere rounds ;;
  let scattered := Ray (p rec) (reflected +^ fuzz m *^ q) in
  let attenuation := albedo m in
  ret (gtb (dot (direction scattered) (normal rec)) 0, attenuation, scattered).

Definition reflectance (cosine ref_idx : R) : R :=
  let r0 := (1 - ref_idx) / (1 + ref_idx) in
  let r0 := r0 * r0 in
  r0 + (1 - r0) * (1 - cosine) ^ 5.

(** In [cannot_refract || reflectance(...) > random_double()] the draw is
    taken only when [cannot_refract] is false. *)
Definition dielectric_scatter (m : dielectric)
    (r_in : ray) (rec : hit_record) (attenuation : color) (scattered : ray)
  : M scatter_result :=
  let attenuation := Vec3 1 1 1 in
  let refraction_ratio := if front_face rec then 1 / ir m else ir m in
  let unit_direction := unit_vector (direction r_in) in
  let cos_theta := Rmin (dot (vec3_neg unit_direction) (normal rec)) 1 in
  let sin_theta := sqrt (1 - cos_theta * cos_theta) in
  let cannot_refract := gtb (refraction_ratio * sin_theta) 1 in
  reflects <-
    (if cannot_refract then ret true
     else u <- random_double ;;
          ret (gtb (reflectance cos_theta refraction_ratio) u)) ;;
  let direction :=
    if reflects : bool then reflect unit_direction (normal rec)
    else refract unit_direction (normal rec) refraction_ratio in
  let scattered := Ray (p rec) direction in
  ret (true, attenuation, scattered).

(** The virtual call [mat_ptr->scatter]. *)
Definition scatter (rounds : nat) (m : material)
    (r_in : ray) (rec : hit_record) (attenuation : color) (scattered : ray)
  : M scatter_result :=
  match m with
  | MLambertian l => lambertian_scatter rounds l r_in rec attenuation scattered
  | MMetal l => metal_scatter rounds l r_in rec attenuation scattered
  | MDielectric l => dielectric_scatter l r_in rec attenuation scattered
  end.

(** ** main.cpp *)

(** [ray_color]; [n] counts the recursive calls still allowed to the
    model and is [Z.to_nat depth] at the outermost call. *)
Fixpoint ray_color_rec (n : nat) (rounds : nat) (r : ray) (world : hittable)
    (depth : Z) {struct n} : M color :=
  let rec := hit_record_default in
  if (depth <=? 0)%Z then ret (Vec3 0 0 0)
  else
    let (b, rec) := hit world r (1 / 1000) infinity rec in
    if b then
      let scattered := Ray (Vec3 0 0 0) (Vec3 0 0 0) in
      let attenuation := Vec3 0 0 0 in
      match mat_ptr rec with
      | None => fail null_material
      | Some m =>
          '(scatters, attenuation, scattered) <-
             scatter rounds m r rec attenuation scattered ;;
          if scatters : bool then
            match n with
            | O => fail depth_exhausted
            | S n' =>
                c <- ray_color_rec n' rounds scattered world (depth - 1) ;;
                ret (attenuation ** c)
            end
          else ret (Vec3 0 0 0)
      end
    else
      let unit_direction := unit_vector (direction r) in
      let k := (1 / 2) * (vec3_y unit_direction + 1) in
      ret ((1 - k) *^ Vec3 1 1 1 +^ k *^ Vec3 (1 / 2) (7 / 10) 1).

Definition ray_color (rounds : nat) (r : ray) (world : hittable) (depth : Z)
  : M color :=
  ray_color_rec (Z.to_nat depth) rounds r world depth.

End Rendering.

(** [static_cast<int>(x)]: the fractional part is dropped. *)
Definition static_cast_int (x : R) : Z :=
  if ltb x 0 then (- Int_part (- x))%Z else Int_part x.

(** The colour processing of one pixel in [main]: the three integers
    written to [std::cout]. *)
Definition write_pixel (pixel_color : color) (samples_per_pixel : Z)
  : Z * Z * Z :=
  let r := vec3_x pixel_color in
  let g := vec3_y pixel_color in
  let b := vec3_z pixel_color in
  let scale := 1 / IZR samples_per_pixel in
  let r := sqrt (scale * r) in
  let g := sqrt (scale * g) in
  let b := sqrt (scale * b) in
  (static_cast_int (256 * clamp r 0 (999 / 1000)),
   static_cast_int (256 * clamp g 0 (999 / 1000)),
   static_cast_int (256 * clamp b 0 (999 / 1000))).

(** * Auxiliary definitions of the statements *)

(** A root is accepted when it lies in [[t_min, t_max]]. *)
Definition in_range (root t_min : R) (t_max : ebound) : Prop :=
  t_min <= root /\ le_bound root t_max.

(** Names for the locals [a], [half_b], [c], [discriminant] and the two
    values [root] takes. *)
Definition quad_a (r : ray) : R := length_squared (direction r).
Definition quad_half_b (s : sphere) (r : ray) : R :=
  dot (origin r -^ center s) (direction r).
Definition quad_c (s : sphere) (r : ray) : R :=
  length_squared (origin r -^ center s) - radius s * radius s.
Definition quad_discriminant (s : sphere) (r : ray) : R :=
  quad_half_b s r * quad_half_b s r - quad_a r * quad_c s r.
Definition root_minus (s : sphere) (r : ray) : R :=
  (- quad_half_b s r - sqrt (quad_discriminant s r)) / quad_a r.
Definition root_plus (s : sphere) (r : ray) : R :=
  (- quad_half_b s r + sqrt (quad_discriminant s r)) / quad_a r.

(** ** Concrete scenes used in the examples *)

Definition red : material := MLambertian (Lambertian (Vec3 1 0 0)).
Definition mirror : material := MMetal (metal_new (Vec3 1 1 1) 0).

(** The unit sphere at the origin, once in each material. *)
Definition ball_red : sphere := Sphere (Vec3 0 0 0) 1 (Some red).
Definition ball_mirror : sphere := Sphere (Vec3 0 0 0) 1 (Some mirror).

(** A ray from (3,0,0) towards the origin, and one from the same point
    that passes the sphere by. *)
Definition ray_in : ray := Ray (Vec3 3 0 0) (Vec3 (-1) 0 0).
Definition ray_away : ray := Ray (Vec3 3 0 0) (Vec3 0 1 0).

(** A ray that starts at the centre of the unit sphere. *)
Definition ray_inside : ray := Ray (Vec3 0 0 0) (Vec3 1 0 0).

(** ** Auxiliary definitions for the aggregate *)

(** [a <= b] for an upper bound [b], as the negation of the test
    [a > b] of the code. *)
Definition leb_bound (a : R) (b : ebound) : bool := negb (gtb_bound a b).

(** The order of upper bounds. *)
Definition bound_le (c' c : ebound) : Prop :=
  match c', c with
  | _, infinity => True
  | Finite m', Finite m => m' <= m
  | infinity, Finite _ => False
  end.

(** The hit of [h] that is nearest to the origin of the ray from [t_min]
    on, with no upper bound: what [h.hit(r, t_min, infinity, rec)]
    reports. *)
Definition nearest_from (h : hittable) (r : ray) (t_min : R)
  : option hit_record :=
  let (b, rc) := hit h r t_min infinity hit_record_default in
  if b then Some rc else None.

(** What a call with upper bound [c] and record [rec] leaves, for an
    object whose nearest hit from [t_min] on is [n]. *)
Definition hit_within (n : option hit_record) (c : ebound) (rec : hit_record)
  : bool * hit_record :=
  match n with
  | Some rc => if leb_bound (t rc) c then (true, rc) else (false, rec)
  | None => (false, rec)
  end.

(** The record the scan of [hittable_list::hit] ends with, read off the
    children's nearest hits [near]: [None] when no child is accepted. *)
Fixpoint best_below (near : hittable -> option hit_record)
    (objects : list hittable) (c : ebound) : option hit_record :=
  match objects with
  | [] => None
  | object :: rest =>
      match near object with
      | Some rc =>
          if leb_bound (t rc) c then
            match best_below near rest (Finite (t rc)) with
            | Some rc' => Some rc'
            | None => Some rc
            end
          else best_below near rest c
      | None => best_below near rest c
      end
  end.

(** Two copies of the unit sphere in different materials, in both
    insertion orders. *)
Definition twins : hittable := HList [HSphere ball_red; HSphere ball_mirror].
Definition twins_swapped : hittable :=
  HList [HSphere ball_mirror; HSphere ball_red].

(** ** A concrete random source and a grazing hit *)

(** A C library with [RAND_MAX = 3] whose [rand()] always returns 1:
    [random_double()] is 1/4 and [random_double(-1,1)] is -1/2. *)
Definition rand_max_3 : Z := 3.
Definition always_one : rand_state := fun _ => 1%Z.

Definition brushed : metal := metal_new (Vec3 1 1 1) 1.

(** A ray that grazes a surface whose normal is the x axis. *)
Definition ray_grazing : ray := Ray (Vec3 1 (-1) 0) (Vec3 0 1 0).
Definition rec_grazing : hit_record :=
  {| p := Vec3 1 0 0; normal := Vec3 1 0 0; mat_ptr := Some (MMetal brushed);
     t := 1; front_face := false |}.

(** Three unit spheres on the x axis, at increasing distance from the
    origin of [ray_in]. *)
Definition glass : material := MDielectric (Dielectric (3 / 2)).
Definition sphere_on_axis (cx : R) (m : material) : sphere :=
  Sphere (Vec3 cx 0 0) 1 (Some m).
Definition near_sphere : hittable := HSphere (sphere_on_axis 0 red).
Definition mid_sphere : hittable := HSphere (sphere_on_axis (-3) mirror).
Definition far_sphere : hittable := HSphere (sphere_on_axis (-6) glass).

(** ** Auxiliary definitions for the geometry of a hit *)


(** ** Auxiliary definitions for the random source *)

(** What the C standard promises of [rand()]: every value is between 0
    and [RAND_MAX]. *)
Definition rand_in_range (RAND_MAX : Z) (s : rand_state) : Prop :=
  forall n, (0 <= s n <= RAND_MAX)%Z.

(** The state after [k] calls of [rand()]. *)
Definition after_draws (k : nat) (s s' : rand_state) : Prop :=
  forall n, s' n = s (n + k)%nat.

(** ** rtweekend.hpp, continued: [pi] and [degrees_to_radians] *)

(** The literal 3.1415926535897932385. *)
Definition pi : R := 31415926535897932385 / 10000000000000000000.

Definition degrees_to_radians (degrees : R) : R := degrees * pi / 180.

(** ** camera.hpp *)

Record camera : Type := Camera {
  camera_origin : point3;
  lower_left_corner : point3;
  horizontal : vec3;
  vertical : vec3;
  camera_u : vec3;
  camera_v : vec3;
  camera_w : vec3;
  lens_radius : R
}.

(** The constructor of [camera]. *)
Definition camera_new (lookfrom lookat : point3) (vup : vec3)
    (vfov aspect_ratio aperture focus_dist : R) : camera :=
  let theta := degrees_to_radians vfov in
  let h := tan (theta / 2) in
  let viewport_height := 2 * h in
  let viewport_width := aspect_ratio * viewport_height in
  let w := unit_vector (lookfrom -^ lookat) in
  let u := unit_vector (cross vup w) in
  let v := cross w u in
  let origin := lookfrom in
  let horizontal := (focus_dist * viewport_width) *^ u in
  let vertical := (focus_dist * viewport_height) *^ v in
  let lower_left_corner :=
    origin -^ horizontal /^ 2 -^ vertical /^ 2 -^ focus_dist *^ w in
  {| camera_origin := origin;
     lower_left_corner := lower_left_corner;
     horizontal := horizontal;
     vertical := vertical;
     camera_u := u; camera_v := v; camera_w := w;
     lens_radius := aperture / 2 |}.

Section CameraRays.

Variable RAND_MAX : Z.

(** [camera::get_ray]; the parameters [s] and [t] of the source are
    [sx] and [ty] here. *)
Definition get_ray (rounds : nat) (c : camera) (sx ty : R) : M ray :=
  q <- random_in_unit_disk RAND_MAX rounds ;;
  let rd := lens_radius c *^ q in
  let offset := vec3_x rd *^ camera_u c +^ vec3_y rd *^ camera_v c in
  ret (Ray (camera_origin c +^ offset)
           (lower_left_corner c +^ sx *^ horizontal c +^ ty *^ vertical c
            -^ camera_origin c -^ offset)).

End CameraRays.

(** ** Auxiliary definitions for the integrator *)

(** The spheres of a world, in scan order. *)
Fixpoint spheres (h : hittable) : list sphere :=
  match h with
  | HSphere s => [s]
  | HList objects => flat_map spheres objects
  end.

(** A colour whose three channels lie in [[0, 1]]. *)
Definition color_unit (c : color) : Prop :=
  0 <= e0 c <= 1 /\ 0 <= e1 c <= 1 /\ 0 <= e2 c <= 1.

(** The colour a material multiplies with: the albedo of a diffuse or
    metal material, which [scatter] hands out as attenuation. *)
Definition material_albedo_unit (m : material) : Prop :=
  match m with
  | MLambertian l => color_unit (lambertian_albedo l)
  | MMetal l => color_unit (albedo l)
  | MDielectric _ => True
  end.

(** Every sphere of the world points to a material, and no albedo has a
    channel outside [[0, 1]]. *)
Definition world_ok (world : hittable) : Prop :=
  Forall (fun s => exists m, sphere_mat_ptr s = Some m /\
                             material_albedo_unit m)
         (spheres world).

(** ** main.cpp, continued: [random_scene] and the render loop *)

(** The values [lo], [lo + 1], ... a counting [for] loop runs through. *)
Definition int_range (lo : Z) (count : nat) : list Z :=
  map (fun k => (lo + Z.of_nat k)%Z) (seq 0 count).

(** A [for] loop over [indices] whose body updates [acc]. *)
Fixpoint for_each {A : Type} (indices : list Z) (body : A -> Z -> M A)
    (acc : A) : M A :=
  match indices with
  | [] => ret acc
  | i :: rest => acc' <- body acc i ;; for_each rest body acc'
  end.

Section Scene.

Variable RAND_MAX : Z.

(** The body of the inner loop of [random_scene], on the [objects] of
    [world].  Where C++ leaves the order of two calls of [random_double]
    in one expression open, they are taken left to right. *)
Definition random_scene_cell (world : list hittable) (a b : Z)
  : M (list hittable) :=
  choose_mat <- random_double RAND_MAX ;;
  cx <- random_double RAND_MAX ;;
  cz <- random_double RAND_MAX ;;
  let center := Vec3 (IZR a + 9 / 10 * cx) (1 / 5) (IZR b + 9 / 10 * cz) in
  if gtb (length (center -^ Vec3 4 (1 / 5) 0)) (9 / 10) then
    if ltb choose_mat (4 / 5) then
      c1 <- vec3_random RAND_MAX ;;
      c2 <- vec3_random RAND_MAX ;;
      let albedo := c1 ** c2 in
      let sphere_material := Some (MLambertian (Lambertian albedo)) in
      ret (hittable_list_add world
             (HSphere (Sphere center (1 / 5) sphere_material)))
    else if ltb choose_mat (19 / 20) then
      albedo <- vec3_random_range RAND_MAX (1 / 2) 1 ;;
      fuzz <- random_double_range RAND_MAX 0 (1 / 2) ;;
      let sphere_material := Some (MMetal (metal_new albedo fuzz)) in
      ret (hittable_list_add world
             (HSphere (Sphere center (1 / 5) sphere_material)))
    else
      let sphere_material := Some (MDielectric (Dielectric (3 / 2))) in
      ret (hittable_list_add world
             (HSphere (Sphere center (1 / 5) sphere_material)))
  else ret world.

(** [random_scene]: the [objects] of the list it returns. *)
Definition random_scene : M (list hittable) :=
  let world := [] in
  let ground_material := Some (MLambertian (Lambertian (Vec3 (1 / 2) (1 / 2) (1 / 2)))) in
  let world :=
    hittable_list_add world
      (HSphere (Sphere (Vec3 0 (-1000) 0) 1000 ground_material)) in
  world <-
    for_each (int_range (-11) 22)
      (fun world a =>
         for_each (int_range (-11) 22)
           (fun world b => random_scene_cell world a b) world)
      world ;;
  let material1 := Some (MDielectric (Dielectric (3 / 2))) in
  let world :=
    hittable_list_add world (HSphere (Sphere (Vec3 0 1 0) 1 material1)) in
  let material2 := Some (MLambertian (Lambertian (Vec3 (2 / 5) (1 / 5) (1 / 10)))) in
  let world :=
    hittable_list_add world (HSphere (Sphere (Vec3 (-4) 1 0) 1 material2)) in
  let material3 := Some (MMetal (metal_new (Vec3 (7 / 10) (3 / 5) (1 / 2)) 0)) in
  let world :=
    hittable_list_add world (HSphere (Sphere (Vec3 4 1 0) 1 material3)) in
  ret world.

(** The sample loop of one pixel in [main]: [count] samples are still to
    be added to [pixel_color]. *)
Fixpoint sample_loop (rounds : nat) (cam : camera) (world : hittable)
    (image_width image_height max_depth : Z) (i j : Z) (count : nat)
    (pixel_color : color) : M color :=
  match count with
  | O => ret pixel_color
  | S count' =>
      du <- random_double RAND_MAX ;;
      let u := (IZR i + du) / IZR (image_width - 1) in
      dv <- random_double RAND_MAX ;;
      let v := (IZR j + dv) / IZR (image_height - 1) in
      r <- get_ray RAND_MAX rounds cam u v ;;
      c <- ray_color RAND_MAX rounds r world max_depth ;;
      sample_loop rounds cam world image_width image_height max_depth i j
                  count' (pixel_color +^ c)
  end.

(** The body of the loop over [i]: the triple written for pixel
    [(i, j)]. *)
Definition render_pixel (rounds : nat) (cam : camera) (world : hittable)
    (image_width image_height samples_per_pixel max_depth : Z) (i j : Z)
  : M (Z * Z * Z) :=
  pixel_color <-
    sample_loop rounds cam world image_width image_height max_depth i j
                (Z.to_nat samples_per_pixel) (Vec3 0 0 0) ;;
  ret (write_pixel pixel_color samples_per_pixel).

(** The two loops of [main], [j] from [image_height - 1] down to 0 and
    [i] from 0 up: the triples written to [std::cout], in order. *)
Definition render (rounds : nat) (cam : camera) (world : hittable)
    (image_width image_height samples_per_pixel max_depth : Z)
  : M (list (Z * Z * Z)) :=
  for_each (rev (int_range 0 (Z.to_nat image_height)))
    (fun out j =>
       for_each (int_range 0 (Z.to_nat image_width))
         (fun out i =>
            px <- render_pixel rounds cam world image_width image_height
                               samples_per_pixel max_depth i j ;;
            ret (out ++ [px]))
         out)
    [].

(** [main], with its constants: the world, the camera, and the triples
    that follow the header. *)
Definition main_pixels (rounds : nat) : M (list (Z * Z * Z)) :=
  let aspect_ratio := 16 / 9 in
  let image_width := 400%Z in
  let image_height := static_cast_int (IZR image_width / aspect_ratio) in
  let samples_per_pixel := 10%Z in
  let max_depth := 50%Z in
  world <- random_scene ;;
  let lookfrom := Vec3 13 2 3 in
  let lookat := Vec3 0 0 0 in
  let vup := Vec3 0 1 0 in
  let dist_to_focus := 10 in
  let aperture := 1 / 10 in
  let cam := camera_new lookfrom lookat vup 20 aspect_ratio aperture
                        dist_to_focus in
  render rounds cam (HList world) image_width image_height
         samples_per_pixel max_depth.

End Scene.

(** ** Auxiliary definitions for the scene and the image *)

(** A sphere with a material whose albedo has its channels in [[0, 1]]. *)
Definition sphere_ok (sp : sphere) : Prop :=
  exists m, sphere_mat_ptr sp = Some m /\ material_albedo_unit m.

(** A triple of integers of [[0, 255]]. *)
Definition byte_triple (px : Z * Z * Z) : Prop :=
  let '(ir, ig, ib) := px in
  (0 <= ir <= 255)%Z /\ (0 <= ig <= 255)%Z /\ (0 <= ib <= 255)%Z.

(** An object of the scene: a sphere with a material whose albedo has its
    channels in [[0, 1]]. *)
Definition object_ok (o : hittable) : Prop :=
  exists sp, o = HSphere sp /\ sphere_ok sp.

(** The ground and the three large spheres of [random_scene]. *)
Definition scene_ground : hittable :=
  HSphere (Sphere (Vec3 0 (-1000) 0) 1000
             (Some (MLambertian (Lambertian (Vec3 (1 / 2) (1 / 2) (1 / 2)))))).
Definition scene_glass : hittable :=
  HSphere (Sphere (Vec3 0 1 0) 1 (Some (MDielectric (Dielectric (3 / 2))))).
Definition scene_matte : hittable :=
  HSphere (Sphere (Vec3 (-4) 1 0) 1
             (Some (MLambertian (Lambertian (Vec3 (2 / 5) (1 / 5) (1 / 10)))))).
Definition scene_metal : hittable :=
  HSphere (Sphere (Vec3 4 1 0) 1
             (Some (MMetal (metal_new (Vec3 (7 / 10) (3 / 5) (1 / 2)) 0)))).

(** A small sphere as the inner loop of [random_scene] adds them: radius
    0.2, resting on the ground, and its centre more than 0.9 away from
    (4, 0.2, 0). *)
Definition small_sphere (o : hittable) : Prop :=
  exists sp, o = HSphere sp /\ sphere_ok sp /\ radius sp = 1 / 5 /\
             e1 (center sp) = 1 / 5 /\
             9 / 10 < length (center sp -^ Vec3 4 (1 / 5) 0).

(** A computation that, started on the stream [always_one], returns a
    value and leaves the stream as it is. *)
Definition steady {A : Type} (c : M A) : Prop :=
  exists a, c always_one = inr (a, always_one).

(** ** vec3.hpp on binary64 numbers *)

(** The operations [reflect] is built from, with [double] as the IEEE 754
    binary64 numbers of the kernel: every operation rounds to nearest, as
    the compiled program does. *)
Module B64.
Import PrimFloat.

Record vec3 : Type := Vec3 { e0 : float; e1 : float; e2 : float }.

Definition vec3_sub (u v : vec3) : vec3 :=
  Vec3 (e0 u - e0 v) (e1 u - e1 v) (e2 u - e2 v).

Definition vec3_scale (k : float) (v : vec3) : vec3 :=
  Vec3 (k * e0 v) (k * e1 v) (k * e2 v).

Definition dot (u v : vec3) : float :=
  e0 u * e0 v + e1 u * e1 v + e2 u * e2 v.

Definition reflect (v n : vec3) : vec3 :=
  vec3_sub v (vec3_scale (2 * dot v n) n).


(** The numbers 1.0 and 0.0, a vector along the x axis, and a vector [n]
    for which the program computes [dot(n, n) == 1.0]. *)
Definition one : float := 1.
Definition zero : float := 0.
Definition along_x : vec3 := Vec3 1 0 0.
Definition tilted : vec3 := Vec3 0.28 0.96 0.

End B64.

(** * Properties *)

(** Unfolding the vector operations down to their components. *)
Ltac vec3_unfold :=
  repeat progress
    (unfold dot, length_squared, ray_at, unit_vector, reflect, vec3_div,
            vec3_sub, vec3_add, vec3_scale, vec3_neg, vec3_mul,
            vec3_x, vec3_y, vec3_z, origin, direction;
     simpl).

(** ** Comparisons *)

Lemma ltb_true (a b : R) : ltb a b = true <-> a < b.
Proof. unfold ltb; destruct (Rlt_dec a b); split; intros; auto; discriminate. Qed.

Lemma ltb_false (a b : R) : ltb a b = false <-> b <= a.
Proof.
  unfold ltb; destruct (Rlt_dec a b); split; intros; auto; try discriminate; lra.
Qed.

Lemma gtb_true (a b : R) : gtb a b = true <-> b < a.
Proof. apply ltb_true. Qed.

Lemma gtb_false (a b : R) : gtb a b = false <-> a <= b.
Proof. apply ltb_false. Qed.

Lemma gtb_bound_false (a : R) (b : ebound) :
  gtb_bound a b = false <-> le_bound a b.
Proof.
  destruct b as [m|]; simpl; [apply gtb_false | tauto].
Qed.

Lemma gtb_bound_true (a : R) (b : ebound) :
  gtb_bound a b = true <-> ~ le_bound a b.
Proof.
  rewrite <- gtb_bound_false. destruct (gtb_bound a b); intuition congruence.
Qed.

Lemma out_of_range_false (root t_min : R) (t_max : ebound) :
  out_of_range root t_min t_max = false <-> in_range root t_min t_max.
Proof.
  unfold out_of_range, in_range.
  rewrite orb_false_iff, ltb_false, gtb_bound_false. tauto.
Qed.

Lemma out_of_range_true (root t_min : R) (t_max : ebound) :
  out_of_range root t_min t_max = true <-> ~ in_range root t_min t_max.
Proof.
  rewrite <- out_of_range_false.
  destruct (out_of_range root t_min t_max); intuition congruence.
Qed.

(** ** The quadratic of [sphere::hit] *)

Lemma sphere_hit_unfold s r t_min t_max rec :
  sphere_hit s r t_min t_max rec =
  if ltb (quad_discriminant s r) 0 then (false, rec)
  else if out_of_range (root_minus s r) t_min t_max then
         if out_of_range (root_plus s r) t_min t_max then (false, rec)
         else (true, sphere_fill s r (root_plus s r) rec)
       else (true, sphere_fill s r (root_minus s r) rec).
Proof. reflexivity. Qed.

Lemma sphere_hit_negative s r t_min t_max rec :
  quad_discriminant s r < 0 -> sphere_hit s r t_min t_max rec = (false, rec).
Proof.
  intros H. rewrite sphere_hit_unfold.
  apply ltb_true in H. now rewrite H.
Qed.

Lemma sphere_hit_minus s r t_min t_max rec :
  0 <= quad_discriminant s r -> in_range (root_minus s r) t_min t_max ->
  sphere_hit s r t_min t_max rec = (true, sphere_fill s r (root_minus s r) rec).
Proof.
  intros H H1. rewrite sphere_hit_unfold.
  apply ltb_false in H. apply out_of_range_false in H1. now rewrite H, H1.
Qed.

Lemma sphere_hit_plus s r t_min t_max rec :
  0 <= quad_discriminant s r -> ~ in_range (root_minus s r) t_min t_max ->
  in_range (root_plus s r) t_min t_max ->
  sphere_hit s r t_min t_max rec = (true, sphere_fill s r (root_plus s r) rec).
Proof.
  intros H H1 H2. rewrite sphere_hit_unfold.
  apply ltb_false in H. apply out_of_range_true in H1.
  apply out_of_range_false in H2. now rewrite H, H1, H2.
Qed.

Lemma sphere_hit_outside s r t_min t_max rec :
  0 <= quad_discriminant s r -> ~ in_range (root_minus s r) t_min t_max ->
  ~ in_range (root_plus s r) t_min t_max ->
  sphere_hit s r t_min t_max rec = (false, rec).
Proof.
  intros H H1 H2. rewrite sphere_hit_unfold.
  apply ltb_false in H. apply out_of_range_true in H1.
  apply out_of_range_true in H2. now rewrite H, H1, H2.
Qed.

(** A successful [sphere::hit] wrote the record with one of the two
    roots, and that root is in range. *)
Lemma sphere_hit_true_inv s r t_min t_max rec rec' :
  sphere_hit s r t_min t_max rec = (true, rec') ->
  exists root, rec' = sphere_fill s r root rec /\ in_range root t_min t_max.
Proof.
  rewrite sphere_hit_unfold.
  destruct (ltb (quad_discriminant s r) 0); [discriminate|].
  destruct (out_of_range (root_minus s r) t_min t_max) eqn:E1.
  - destruct (out_of_range (root_plus s r) t_min t_max) eqn:E2; [discriminate|].
    intros [= <-]. exists (root_plus s r). split; [reflexivity|].
    now apply out_of_range_false.
  - intros [= <-]. exists (root_minus s r). split; [reflexivity|].
    now apply out_of_range_false.
Qed.

Lemma sphere_hit_false_inv s r t_min t_max rec rec' :
  sphere_hit s r t_min t_max rec = (false, rec') -> rec' = rec.
Proof.
  rewrite sphere_hit_unfold.
  destruct (ltb (quad_discriminant s r) 0); [now intros [= <-]|].
  destruct (out_of_range (root_minus s r) t_min t_max);
    [destruct (out_of_range (root_plus s r) t_min t_max)|];
    intros E; inversion E; reflexivity.
Qed.

(** Every field of the record is written on acceptance: the filled
    record does not depend on the record passed in. *)
Lemma sphere_fill_any s r root rec1 rec2 :
  sphere_fill s r root rec1 = sphere_fill s r root rec2.
Proof. reflexivity. Qed.

(** ** The example rays against the unit sphere *)

Lemma ray_in_a : quad_a ray_in = 1.
Proof. unfold quad_a, length_squared; simpl; lra. Qed.

Lemma ray_in_half_b s : center s = Vec3 0 0 0 -> quad_half_b s ray_in = -3.
Proof. intros H. unfold quad_half_b, dot; rewrite H; simpl; lra. Qed.

Lemma ray_in_discriminant s :
  center s = Vec3 0 0 0 -> radius s = 1 -> quad_discriminant s ray_in = 1.
Proof.
  intros H H1. unfold quad_discriminant.
  rewrite ray_in_a, (ray_in_half_b s H).
  unfold quad_c, length_squared; rewrite H, H1; simpl; lra.
Qed.

Lemma ray_in_root_minus s :
  center s = Vec3 0 0 0 -> radius s = 1 -> root_minus s ray_in = 2.
Proof.
  intros H H1. unfold root_minus.
  rewrite (ray_in_discriminant s H H1), ray_in_a, (ray_in_half_b s H), sqrt_1.
  lra.
Qed.

Lemma ray_in_root_plus s :
  center s = Vec3 0 0 0 -> radius s = 1 -> root_plus s ray_in = 4.
Proof.
  intros H H1. unfold root_plus.
  rewrite (ray_in_discriminant s H H1), ray_in_a, (ray_in_half_b s H), sqrt_1.
  lra.
Qed.

(** The ray towards the sphere hits it at [t = 2], whatever the upper
    bound from 2 on. *)
Lemma ray_in_hits s t_max rec :
  center s = Vec3 0 0 0 -> radius s = 1 -> le_bound 2 t_max ->
  sphere_hit s ray_in 0 t_max rec = (true, sphere_fill s ray_in 2 rec).
Proof.
  intros H H1 Hm.
  rewrite <- (ray_in_root_minus s H H1).
  apply sphere_hit_minus.
  - rewrite (ray_in_discriminant s H H1); lra.
  - rewrite (ray_in_root_minus s H H1). split; [lra | exact Hm].
Qed.

Lemma ray_away_discriminant : quad_discriminant ball_red ray_away = -8.
Proof.
  unfold quad_discriminant, quad_half_b, quad_a, quad_c, dot, length_squared.
  simpl; lra.
Qed.

Lemma ray_away_misses t_min t_max rec :
  sphere_hit ball_red ray_away t_min t_max rec = (false, rec).
Proof. apply sphere_hit_negative. rewrite ray_away_discriminant. lra. Qed.

(** ** [sphere::hit] *)

(** C3.  [sphere::hit] forms the quadratic with [a = |direction|^2],
    [half_b = dot(origin - center, direction)],
    [c = |origin - center|^2 - radius^2] and
    [discriminant = half_b^2 - a c].  A negative discriminant is a miss.
    Otherwise the smaller root [(-half_b - sqrt discriminant) / a] is
    accepted when it lies in [[t_min, t_max]], else the larger root
    [(-half_b + sqrt discriminant) / a] when that one does, else the call is
    a miss.  On acceptance [rec.t] is the accepted root and [rec.p] is
    [r.at(rec.t)], which is [origin + rec.t * direction]. *)
Theorem sphere_hit_quadratic (s : sphere) (r : ray) (t_min : R)
    (t_max : ebound) (rec : hit_record) :
  let oc := origin r -^ center s in
  let a := length_squared (direction r) in
  let half_b := dot oc (direction r) in
  let c := length_squared oc - radius s * radius s in
  let discriminant := half_b * half_b - a * c in
  let smaller := (- half_b - sqrt discriminant) / a in
  let larger := (- half_b + sqrt discriminant) / a in
  let accepts (root : R) :=
    exists rec', sphere_hit s r t_min t_max rec = (true, rec') /\
                 t rec' = root /\
                 p rec' = ray_at r (t rec') /\
                 p rec' = origin r +^ t rec' *^ direction r in
  (discriminant < 0 -> sphere_hit s r t_min t_max rec = (false, rec)) /\
  (0 <= discriminant -> in_range smaller t_min t_max -> accepts smaller) /\
  (0 <= discriminant -> ~ in_range smaller t_min t_max ->
   in_range larger t_min t_max -> accepts larger) /\
  (0 <= discriminant -> ~ in_range smaller t_min t_max ->
   ~ in_range larger t_min t_max ->
   sphere_hit s r t_min t_max rec = (false, rec)).
Proof.
  cbv zeta.
  change (dot (origin r -^ center s) (direction r)) with (quad_half_b s r).
  change (length_squared (direction r)) with (quad_a r).
  change (length_squared (origin r -^ center s) - radius s * radius s)
    with (quad_c s r).
  change (quad_half_b s r * quad_half_b s r - quad_a r * quad_c s r)
    with (quad_discriminant s r).
  change ((- quad_half_b s r - sqrt (quad_discriminant s r)) / quad_a r)
    with (root_minus s r).
  change ((- quad_half_b s r + sqrt (quad_discriminant s r)) / quad_a r)
    with (root_plus s r).
  repeat split.
  - apply sphere_hit_negative.
  - intros H H1. exists (sphere_fill s r (root_minus s r) rec).
    repeat split. now apply sphere_hit_minus.
  - intros H H1 H2. exists (sphere_fill s r (root_plus s r) rec).
    repeat split. now apply sphere_hit_plus.
  - apply sphere_hit_outside.
Qed.

(** C4.  After an accepted sphere hit, [front_face] is true exactly when
    [dot(r.direction, outward_normal) < 0], where
    [outward_normal = (rec.p - center) / radius]; the stored normal is
    [outward_normal] when [front_face] is true and its negation
    otherwise. *)
Theorem sphere_hit_front_face (s : sphere) (r : ray) (t_min : R)
    (t_max : ebound) (rec rec' : hit_record) :
  sphere_hit s r t_min t_max rec = (true, rec') ->
  let outward_normal := (p rec' -^ center s) /^ radius s in
  (front_face rec' = true <-> dot (direction r) outward_normal < 0) /\
  normal rec' =
    (if front_face rec' then outward_normal else vec3_neg outward_normal).
Proof.
  intros H. apply sphere_hit_true_inv in H. destruct H as [root [-> _]].
  cbv zeta. split.
  - unfold sphere_fill, set_face_normal; simpl. apply ltb_true.
  - reflexivity.
Qed.

(** The ray that comes from outside meets the front face. *)
Lemma sphere_hit_front_face_witness :
  let rec' := sphere_fill ball_red ray_in 2 hit_record_default in
  let outward_normal := (p rec' -^ center ball_red) /^ radius ball_red in
  (front_face rec' = true <-> dot (direction ray_in) outward_normal < 0) /\
  normal rec' =
    (if front_face rec' then outward_normal else vec3_neg outward_normal).
Proof.
  apply (sphere_hit_front_face ball_red ray_in 0 infinity hit_record_default).
  apply ray_in_hits; simpl; auto.
Defined.

(** C7.  When [sphere::hit] returns false the caller's record is the one
    passed in: none of [t], [p], [normal], [front_face], [mat_ptr] has
    changed.  The sphere is an argument the function only reads (the
    member function is [const]); the call produces no new sphere. *)
Theorem sphere_hit_false_keeps_record (s : sphere) (r : ray) (t_min : R)
    (t_max : ebound) (rec rec' : hit_record) :
  sphere_hit s r t_min t_max rec = (false, rec') ->
  rec' = rec /\
  t rec' = t rec /\ p rec' = p rec /\ normal rec' = normal rec /\
  front_face rec' = front_face rec /\ mat_ptr rec' = mat_ptr rec.
Proof.
  intros H. apply sphere_hit_false_inv in H. subst rec'. repeat split.
Qed.

Lemma sphere_hit_false_keeps_record_witness :
  let rec := sphere_fill ball_mirror ray_in 2 hit_record_default in
  let rec' := snd (sphere_hit ball_red ray_away 0 infinity rec) in
  rec' = rec /\
  t rec' = t rec /\ p rec' = p rec /\ normal rec' = normal rec /\
  front_face rec' = front_face rec /\ mat_ptr rec' = mat_ptr rec.
Proof.
  cbv zeta.
  apply (sphere_hit_false_keeps_record ball_red ray_away 0 infinity).
  rewrite ray_away_misses. reflexivity.
Defined.

(** From inside the sphere the smaller root is negative, the larger one is
    taken, and the stored normal is the negated outward normal. *)
Lemma ray_inside_hits rec :
  sphere_hit ball_red ray_inside 0 infinity rec
  = (true, sphere_fill ball_red ray_inside 1 rec).
Proof.
  assert (Ha : quad_a ray_inside = 1)
    by (unfold quad_a, length_squared; simpl; lra).
  assert (Hb : quad_half_b ball_red ray_inside = 0)
    by (unfold quad_half_b, dot; simpl; lra).
  assert (Hd : quad_discriminant ball_red ray_inside = 1).
  { unfold quad_discriminant. rewrite Ha, Hb.
    unfold quad_c, length_squared; simpl; lra. }
  assert (Hm : root_minus ball_red ray_inside = -1)
    by (unfold root_minus; rewrite Hd, Ha, Hb, sqrt_1; lra).
  assert (Hp : root_plus ball_red ray_inside = 1)
    by (unfold root_plus; rewrite Hd, Ha, Hb, sqrt_1; lra).
  replace (sphere_fill ball_red ray_inside 1 rec)
    with (sphere_fill ball_red ray_inside (root_plus ball_red ray_inside) rec)
    by (now rewrite Hp).
  apply sphere_hit_plus.
  - rewrite Hd; lra.
  - rewrite Hm. unfold in_range. lra.
  - rewrite Hp. unfold in_range; simpl. lra.
Qed.

Lemma sphere_fill_normal s r root rec :
  let rec' := sphere_fill s r root rec in
  normal rec' =
    if front_face rec' then (p rec' -^ center s) /^ radius s
    else vec3_neg ((p rec' -^ center s) /^ radius s).
Proof. reflexivity. Qed.

Example ray_inside_back_face :
  let rec' := snd (sphere_hit ball_red ray_inside 0 infinity hit_record_default) in
  front_face rec' = false /\
  normal rec' = vec3_neg ((p rec' -^ center ball_red) /^ radius ball_red).
Proof.
  cbv zeta. rewrite ray_inside_hits. unfold snd.
  assert (H : front_face (sphere_fill ball_red ray_inside 1 hit_record_default)
              = false)
    by (simpl; apply ltb_false; vec3_unfold; lra).
  split; [exact H|].
  rewrite sphere_fill_normal. cbv zeta. now rewrite H.
Qed.

Example ray_in_front_face :
  let rec' := snd (sphere_hit ball_red ray_in 0 infinity hit_record_default) in
  front_face rec' = true /\
  normal rec' = (p rec' -^ center ball_red) /^ radius ball_red.
Proof.
  cbv zeta. rewrite ray_in_hits by (simpl; auto). unfold snd.
  assert (H : front_face (sphere_fill ball_red ray_in 2 hit_record_default) = true)
    by (simpl; apply ltb_true; vec3_unfold; lra).
  split; [exact H|].
  rewrite sphere_fill_normal. cbv zeta. now rewrite H.
Qed.

(** ** The [metal] constructor *)

(** C5, as stated, fails: a negative argument is stored as it is. *)
Lemma metal_fuzz_below_zero :
  ~ (forall (a : color) (f : R), 0 <= fuzz (metal_new a f) <= 1).
Proof.
  intros H. specialize (H (Vec3 0 0 0) (-1)).
  unfold metal_new in H; simpl in H.
  assert (E : ltb (-1) 1 = true) by (apply ltb_true; lra).
  rewrite E in H. lra.
Qed.

(** C5, amended.  The constructor caps the argument at 1 and has no lower
    bound: the stored [fuzz] is [min(f, 1)], it is at most 1, and it lies
    in [[0,1]] whenever the argument is not negative. *)
Theorem metal_fuzz_capped (a : color) (f : R) :
  fuzz (metal_new a f) = Rmin f 1 /\
  fuzz (metal_new a f) <= 1 /\
  (0 <= f -> 0 <= fuzz (metal_new a f) <= 1) /\
  (f < 0 -> fuzz (metal_new a f) = f).
Proof.
  unfold metal_new; simpl.
  destruct (ltb f 1) eqn:E.
  - apply ltb_true in E. unfold Rmin. destruct (Rle_dec f 1); repeat split; lra.
  - apply ltb_false in E. unfold Rmin. destruct (Rle_dec f 1); repeat split; lra.
Qed.

(** ** [reflect] on binary64 numbers *)

(** What the program computes for [v = (1, 0, 0)] and
    [n = (0.28, 0.96, 0)]: [dot(n, n)] is 1.0, and reflecting twice gives
    back the x and z components of [v] but not its y component. *)
Lemma reflect_twice_b64 :
  PrimFloat.eqb (B64.dot B64.tilted B64.tilted) B64.one = true /\
  PrimFloat.eqb
    (B64.e0 (B64.reflect (B64.reflect B64.along_x B64.tilted) B64.tilted))
    B64.one = true /\
  PrimFloat.eqb
    (B64.e1 (B64.reflect (B64.reflect B64.along_x B64.tilted) B64.tilted))
    B64.zero = false /\
  PrimFloat.ltb
    B64.zero
    (B64.e1 (B64.reflect (B64.reflect B64.along_x B64.tilted) B64.tilted))
  = true.
Proof. repeat split; vm_compute; reflexivity. Qed.


(** ** [reflect] *)




(** ** The pixel written by [main] *)

Lemma clamp_bounds (x lo hi : R) : lo <= hi -> lo <= clamp x lo hi <= hi.
Proof.
  intros H. unfold clamp.
  destruct (ltb x lo) eqn:E1; [lra|].
  destruct (gtb x hi) eqn:E2; [lra|].
  apply ltb_false in E1. apply gtb_false in E2. lra.
Qed.

Lemma Int_part_bounds (x : R) (lo hi : Z) :
  IZR lo <= x -> x < IZR hi + 1 -> (lo <= Int_part x <= hi)%Z.
Proof.
  intros H1 H2. unfold Int_part.
  destruct (archimed x) as [Hup Hlow].
  assert (A : (lo < up x)%Z) by (apply lt_IZR; lra).
  assert (B : (up x < hi + 2)%Z).
  { apply lt_IZR. rewrite plus_IZR. simpl. lra. }
  lia.
Qed.

Lemma static_cast_int_byte (c : R) :
  0 <= c <= 999 / 1000 -> (0 <= static_cast_int (256 * c) <= 255)%Z.
Proof.
  intros H. unfold static_cast_int.
  assert (E : ltb (256 * c) 0 = false) by (apply ltb_false; lra).
  rewrite E. apply Int_part_bounds; simpl; lra.
Qed.

(** C8.  For channel sums that are not negative and at least one sample
    per pixel, each of the three integers written for a pixel, the integer
    part of [256 * clamp(sqrt(channel / samples_per_pixel), 0.0, 0.999)],
    lies in [[0, 255]]. *)
Theorem write_pixel_bytes (pixel_color : color) (samples_per_pixel : Z) :
  0 <= vec3_x pixel_color -> 0 <= vec3_y pixel_color ->
  0 <= vec3_z pixel_color -> (1 <= samples_per_pixel)%Z ->
  let '(ir, ig, ib) := write_pixel pixel_color samples_per_pixel in
  let byte_of (channel : R) :=
    static_cast_int
      (256 * clamp (sqrt (channel / IZR samples_per_pixel)) 0 (999 / 1000)) in
  ir = byte_of (vec3_x pixel_color) /\
  ig = byte_of (vec3_y pixel_color) /\
  ib = byte_of (vec3_z pixel_color) /\
  (0 <= ir <= 255)%Z /\ (0 <= ig <= 255)%Z /\ (0 <= ib <= 255)%Z.
Proof.
  intros _ _ _ _. unfold write_pixel. cbv zeta.
  assert (E : forall channel,
             1 / IZR samples_per_pixel * channel
             = channel / IZR samples_per_pixel)
    by (intros channel; unfold Rdiv; ring).
  rewrite !E.
  repeat split; try reflexivity;
    apply static_cast_int_byte; apply clamp_bounds; lra.
Qed.

Lemma write_pixel_bytes_witness :
  let '(ir, ig, ib) := write_pixel (Vec3 10 5 0) 10 in
  let byte_of (channel : R) :=
    static_cast_int
      (256 * clamp (sqrt (channel / IZR 10)) 0 (999 / 1000)) in
  ir = byte_of (vec3_x (Vec3 10 5 0)) /\
  ig = byte_of (vec3_y (Vec3 10 5 0)) /\
  ib = byte_of (vec3_z (Vec3 10 5 0)) /\
  (0 <= ir <= 255)%Z /\ (0 <= ig <= 255)%Z /\ (0 <= ib <= 255)%Z.
Proof.
  apply (write_pixel_bytes (Vec3 10 5 0) 10); simpl; try lra; lia.
Defined.

(** ** Upper bounds *)

Lemma leb_bound_true (a : R) (b : ebound) :
  leb_bound a b = true <-> le_bound a b.
Proof.
  unfold leb_bound. rewrite negb_true_iff. apply gtb_bound_false.
Qed.

Lemma leb_bound_false (a : R) (b : ebound) :
  leb_bound a b = false <-> ~ le_bound a b.
Proof.
  unfold leb_bound. rewrite negb_false_iff. apply gtb_bound_true.
Qed.

Lemma le_bound_trans (a : R) (c' c : ebound) :
  le_bound a c' -> bound_le c' c -> le_bound a c.
Proof. destruct c', c; simpl; intros; auto; try lra; tauto. Qed.

Lemma le_bound_le (a b : R) (c : ebound) :
  a <= b -> le_bound b c -> le_bound a c.
Proof. destruct c; simpl; intros; auto; lra. Qed.

Lemma bound_le_refl (c : ebound) : bound_le c c.
Proof. destruct c; simpl; auto; lra. Qed.

Lemma bound_le_infinity (c : ebound) : bound_le c infinity.
Proof. destruct c; simpl; auto. Qed.

(** ** The two roots are in order *)

Lemma quad_a_nonneg (r : ray) : 0 <= quad_a r.
Proof. unfold quad_a, length_squared. nra. Qed.

Lemma Rinv_nonneg (a : R) : 0 <= a -> 0 <= / a.
Proof.
  intros [H | <-].
  - left. now apply Rinv_0_lt_compat.
  - rewrite Rinv_0. lra.
Qed.

Lemma root_minus_le_plus (s : sphere) (r : ray) :
  root_minus s r <= root_plus s r.
Proof.
  unfold root_minus, root_plus, Rdiv.
  pose proof (Rinv_nonneg _ (quad_a_nonneg r)) as Ha.
  pose proof (sqrt_pos (quad_discriminant s r)) as Hs.
  nra.
Qed.

(** ** A narrower upper bound only filters the nearest hit *)

Lemma sphere_hit_within (s : sphere) (r : ray) (t_min : R) (c : ebound)
    (rec : hit_record) :
  sphere_hit s r t_min c rec
  = hit_within (nearest_from (HSphere s) r t_min) c rec.
Proof.
  unfold nearest_from. simpl hit. rewrite !sphere_hit_unfold.
  destruct (ltb (quad_discriminant s r) 0); [reflexivity|].
  pose proof (root_minus_le_plus s r) as Hle.
  unfold out_of_range. simpl gtb_bound. rewrite !orb_false_r.
  destruct (ltb (root_minus s r) t_min) eqn:L1;
  destruct (ltb (root_plus s r) t_min) eqn:L2;
  destruct (gtb_bound (root_minus s r) c) eqn:G1;
  destruct (gtb_bound (root_plus s r) c) eqn:G2;
  simpl; unfold leb_bound; simpl; rewrite ?G1, ?G2; simpl; try reflexivity;
  exfalso;
  rewrite ?ltb_true, ?ltb_false, ?gtb_bound_true, ?gtb_bound_false in *;
  destruct c; simpl in *; try lra; tauto.
Qed.

(** ** The scan of [hittable_list::hit] *)

Lemma hittable_induction (P : hittable -> Prop) :
  (forall s, P (HSphere s)) ->
  (forall objects, Forall P objects -> P (HList objects)) ->
  forall h, P h.
Proof.
  intros Hs Hl. fix IH 1. intros [s | objects].
  - apply Hs.
  - apply Hl. induction objects as [| o rest IHrest]; constructor.
    + apply IH.
    + exact IHrest.
Qed.

Lemma hit_list_unfold (objects : list hittable) r t_min t_max rec :
  hit (HList objects) r t_min t_max rec
  = hit_loop (fun object closest_so_far temp_rec =>
                hit object r t_min closest_so_far temp_rec)
             objects hit_record_default false t_max rec.
Proof. reflexivity. Qed.

Lemma hit_loop_ext (f g : hittable -> ebound -> hit_record -> bool * hit_record)
    (objects : list hittable) :
  (forall o, In o objects -> forall c rc, f o c rc = g o c rc) ->
  forall temp_rec hit_anything c rec,
    hit_loop f objects temp_rec hit_anything c rec
    = hit_loop g objects temp_rec hit_anything c rec.
Proof.
  induction objects as [| o rest IH]; intros H temp_rec ha c rec; simpl.
  - reflexivity.
  - rewrite (H o (or_introl eq_refl)).
    destruct (g o c temp_rec) as [[|] temp_rec'];
      apply IH; intros; apply H; now right.
Qed.

(** The scan over children that behave as [hit_within] ends with the
    record [best_below] names; without one, the flag and the record are
    the ones the scan started with. *)
Lemma hit_loop_best (near : hittable -> option hit_record)
    (objects : list hittable) :
  forall temp_rec hit_anything c rec,
    hit_loop (fun o c rc => hit_within (near o) c rc)
             objects temp_rec hit_anything c rec
    = match best_below near objects c with
      | Some rc' => (true, rc')
      | None => (hit_anything, rec)
      end.
Proof.
  induction objects as [| o rest IH]; intros temp_rec ha c rec; simpl.
  - reflexivity.
  - unfold hit_within at 1. destruct (near o) as [rc |].
    + destruct (leb_bound (t rc) c).
      * rewrite IH. now destruct (best_below near rest (Finite (t rc))).
      * apply IH.
    + apply IH.
Qed.

Lemma best_below_bound near objects :
  forall c rc, best_below near objects c = Some rc -> le_bound (t rc) c.
Proof.
  induction objects as [| o rest IH]; intros c rc; simpl; [discriminate|].
  destruct (near o) as [ro |]; [| apply IH].
  destruct (leb_bound (t ro) c) eqn:E; [| apply IH].
  apply leb_bound_true in E.
  destruct (best_below near rest (Finite (t ro))) as [rc' |] eqn:B.
  - intros [= <-]. apply IH in B. simpl in B.
    now apply le_bound_le with (b := t ro).
  - now intros [= <-].
Qed.

(** Under a narrower bound the scan ends with the same record, if that
    record passes the narrower bound, and with none otherwise. *)
Lemma best_below_narrow near objects :
  forall c' c, bound_le c' c ->
    best_below near objects c'
    = match best_below near objects c with
      | Some rc => if leb_bound (t rc) c' then Some rc else None
      | None => None
      end.
Proof.
  induction objects as [| o rest IH]; intros c' c Hc; simpl; [reflexivity|].
  destruct (near o) as [ro |]; [| now apply IH].
  destruct (leb_bound (t ro) c') eqn:E'.
  - assert (E : leb_bound (t ro) c = true).
    { apply leb_bound_true. apply leb_bound_true in E'.
      now apply le_bound_trans with (c' := c'). }
    rewrite E.
    destruct (best_below near rest (Finite (t ro))) as [rc' |] eqn:B.
    + apply best_below_bound in B. simpl in B.
      assert (X : leb_bound (t rc') c' = true).
      { apply leb_bound_true. apply leb_bound_true in E'.
        now apply le_bound_le with (b := t ro). }
      now rewrite X.
    + now rewrite E'.
  - destruct (leb_bound (t ro) c) eqn:E.
    + assert (Hc' : bound_le c' (Finite (t ro))).
      { apply leb_bound_false in E'. destruct c'; simpl in *; [lra | tauto]. }
      rewrite (IH c' (Finite (t ro)) Hc').
      destruct (best_below near rest (Finite (t ro))); [reflexivity|].
      now rewrite E'.
    + now apply IH.
Qed.

(** [hit] with upper bound [c] reports the object's nearest hit from
    [t_min] on when that hit passes [c], and otherwise leaves the record
    alone. *)
Lemma hit_is_hit_within (h : hittable) :
  forall r t_min c rec,
    hit h r t_min c rec = hit_within (nearest_from h r t_min) c rec.
Proof.
  induction h as [s | objects IH] using hittable_induction;
    intros r t_min c rec.
  - apply sphere_hit_within.
  - rewrite Forall_forall in IH.
    assert (L : forall c rec,
      hit (HList objects) r t_min c rec
      = match best_below (fun o => nearest_from o r t_min) objects c with
        | Some rc' => (true, rc')
        | None => (false, rec)
        end).
    { intros c0 rec0. rewrite hit_list_unfold.
      rewrite (hit_loop_ext _
                 (fun o c rc => hit_within (nearest_from o r t_min) c rc)).
      - apply hit_loop_best.
      - intros o Ho c1 rc1. now apply IH. }
    unfold nearest_from at 1. rewrite !L.
    rewrite (best_below_narrow _ objects c infinity (bound_le_infinity c)).
    destruct (best_below (fun o => nearest_from o r t_min) objects infinity)
      as [rc |]; simpl; [| reflexivity].
    now destruct (leb_bound (t rc) c).
Qed.

Lemma hit_list_best (objects : list hittable) r t_min c rec :
  hit (HList objects) r t_min c rec
  = match best_below (fun o => nearest_from o r t_min) objects c with
    | Some rc' => (true, rc')
    | None => (false, rec)
    end.
Proof.
  rewrite hit_list_unfold.
  rewrite (hit_loop_ext _
             (fun o c rc => hit_within (nearest_from o r t_min) c rc)).
  - apply hit_loop_best.
  - intros o _ c1 rc1. apply hit_is_hit_within.
Qed.

(** A child's hit in [[t_min, t_max]], in terms of its nearest hit. *)
Lemma hit_true_iff (h : hittable) r t_min c rec rc :
  hit h r t_min c rec = (true, rc)
  <-> nearest_from h r t_min = Some rc /\ le_bound (t rc) c.
Proof.
  rewrite hit_is_hit_within. unfold hit_within.
  destruct (nearest_from h r t_min) as [rn |].
  - destruct (leb_bound (t rn) c) eqn:E.
    + apply leb_bound_true in E. split.
      * intros [= <-]. auto.
      * intros [[= <-] _]. reflexivity.
    + apply leb_bound_false in E. split.
      * discriminate.
      * intros [[= <-] H]. contradiction.
  - split; [discriminate | intros [H _]; discriminate].
Qed.

Lemma hit_false_iff (h : hittable) r t_min c rec :
  fst (hit h r t_min c rec) = false
  <-> forall rc, nearest_from h r t_min = Some rc -> ~ le_bound (t rc) c.
Proof.
  rewrite hit_is_hit_within. unfold hit_within.
  destruct (nearest_from h r t_min) as [rn |].
  - destruct (leb_bound (t rn) c) eqn:E; simpl.
    + apply leb_bound_true in E. split; [discriminate|].
      intros H. exfalso. now apply (H rn).
    + apply leb_bound_false in E. split; [| reflexivity].
      now intros _ rc [= <-].
  - simpl. split; [| reflexivity]. intros _ rc. discriminate.
Qed.

(** A reported hit lies in the range asked for. *)
Lemma hit_in_range (h : hittable) :
  forall r t_min c rec rc,
    hit h r t_min c rec = (true, rc) -> in_range (t rc) t_min c.
Proof.
  induction h as [s | objects IH] using hittable_induction;
    intros r t_min c rec rc H.
  - simpl in H. apply sphere_hit_true_inv in H.
    destruct H as [root [-> Hr]]. exact Hr.
  - rewrite Forall_forall in IH. rewrite hit_list_unfold in H.
    revert H. generalize hit_record_default as temp_rec.
    assert (G : forall temp_rec ha c0 rec0,
      bound_le c0 c -> (ha = true -> in_range (t rec0) t_min c) ->
      hit_loop (fun o c1 rc1 => hit o r t_min c1 rc1) objects temp_rec ha c0 rec0
      = (true, rc) -> in_range (t rc) t_min c).
    { induction objects as [| o rest IHrest]; intros temp_rec ha c0 rec0 Hc Hrec;
        simpl.
      - intros [= -> ->]. now apply Hrec.
      - destruct (hit o r t_min c0 temp_rec) as [[|] temp_rec'] eqn:E.
        + apply IH in E; [| now left]. destruct E as [E1 E2].
          apply IHrest.
          * intros o' Ho'. apply IH. now right.
          * apply le_bound_trans with (a := t temp_rec') in Hc; [| exact E2].
            destruct c; simpl in *; auto.
          * intros _. split; [exact E1 |].
            now apply le_bound_trans with (c' := c0).
        + apply IHrest; auto. intros o' Ho'. apply IH. now right. }
    intros temp_rec. apply G; [apply bound_le_refl | discriminate].
Qed.

(** ** What the scan ends with *)

Lemma best_below_none near objects :
  forall c,
    best_below near objects c = None
    <-> forall o ro, In o objects -> near o = Some ro -> ~ le_bound (t ro) c.
Proof.
  induction objects as [| o rest IH]; intros c; simpl.
  - split; [intros _ o ro [] | reflexivity].
  - destruct (near o) as [ro0 |] eqn:N.
    + destruct (leb_bound (t ro0) c) eqn:E.
      * split.
        -- now destruct (best_below near rest (Finite (t ro0))).
        -- intros H. exfalso. apply (H o ro0); auto.
           now apply leb_bound_true.
      * rewrite IH. apply leb_bound_false in E. split.
        -- intros H o' ro' [<- | Ho'] Hn; [| now apply (H o')].
           rewrite N in Hn. now injection Hn as <-.
        -- intros H o' ro' Ho'. apply H. now right.
    + rewrite IH. split.
      * intros H o' ro' [<- | Ho'] Hn; [| now apply (H o')].
        rewrite N in Hn. discriminate.
      * intros H o' ro' Ho'. apply H. now right.
Qed.

Lemma best_below_in near objects :
  forall c rc,
    best_below near objects c = Some rc ->
    exists o, In o objects /\ near o = Some rc.
Proof.
  induction objects as [| o rest IH]; intros c rc; simpl; [discriminate|].
  assert (K : forall c0, best_below near rest c0 = Some rc ->
                         exists o', (o = o' \/ In o' rest) /\ near o' = Some rc).
  { intros c0 H. apply IH in H. destruct H as [o' [H1 H2]]. exists o'. auto. }
  destruct (near o) as [ro0 |] eqn:N; [| apply K].
  destruct (leb_bound (t ro0) c); [| apply K].
  destruct (best_below near rest (Finite (t ro0))) as [rc' |] eqn:B.
  - intros [= <-]. now apply (K (Finite (t ro0))).
  - intros [= <-]. exists o. auto.
Qed.

Lemma best_below_least near objects :
  forall c rc,
    best_below near objects c = Some rc ->
    forall o ro, In o objects -> near o = Some ro -> le_bound (t ro) c ->
                 t rc <= t ro.
Proof.
  induction objects as [| o rest IH]; intros c rc; simpl; [discriminate|].
  destruct (near o) as [ro0 |] eqn:N.
  - destruct (leb_bound (t ro0) c) eqn:E.
    + destruct (best_below near rest (Finite (t ro0))) as [rc' |] eqn:B.
      * intros [= <-] o' ro' [<- | Ho'] Hn Hb.
        -- rewrite N in Hn. injection Hn as <-.
           apply best_below_bound in B. exact B.
        -- destruct (Rle_dec (t ro') (t ro0)) as [Hle | Hgt].
           ++ now apply (IH _ _ B o' ro').
           ++ apply best_below_bound in B. simpl in B. lra.
      * intros [= <-] o' ro' [<- | Ho'] Hn Hb.
        -- rewrite N in Hn. injection Hn as <-. lra.
        -- pose proof (proj1 (best_below_none near rest _) B o' ro' Ho' Hn) as X.
           simpl in X. lra.
    + intros H o' ro' [<- | Ho'] Hn Hb.
      * rewrite N in Hn. injection Hn as <-.
        apply leb_bound_false in E. contradiction.
      * now apply (IH _ _ H o' ro').
  - intros H o' ro' [<- | Ho'] Hn Hb.
    + rewrite N in Hn. discriminate.
    + now apply (IH _ _ H o' ro').
Qed.

(** Of the children whose hit is nearest, the one inserted last ends the
    scan. *)
Lemma best_below_last near (pre post : list hittable) (o : hittable) ro :
  near o = Some ro ->
  (forall o' r', In o' post -> near o' = Some r' -> t ro < t r') ->
  forall c,
    le_bound (t ro) c ->
    (forall o' r', In o' pre -> near o' = Some r' -> le_bound (t r') c ->
                   t ro <= t r') ->
    best_below near (pre ++ o :: post) c = Some ro.
Proof.
  intros N Hpost.
  induction pre as [| o0 pre IH]; intros c Hc Hpre; simpl.
  - rewrite N. apply leb_bound_true in Hc. rewrite Hc.
    assert (B : best_below near post (Finite (t ro)) = None).
    { apply best_below_none. intros o' r' Ho' Hn. simpl.
      specialize (Hpost o' r' Ho' Hn). lra. }
    now rewrite B.
  - assert (K : best_below near (pre ++ o :: post) c = Some ro).
    { apply IH; [exact Hc |]. intros o' r' Ho'. apply Hpre. now right. }
    destruct (near o0) as [r0 |] eqn:N0; [| exact K].
    destruct (leb_bound (t r0) c) eqn:E; [| exact K].
    apply leb_bound_true in E.
    assert (H0 : t ro <= t r0)
      by (apply (Hpre o0 r0); [now left | exact N0 | exact E]).
    rewrite IH; [reflexivity | exact H0 |].
    intros o' r' Ho' Hn Hb. apply (Hpre o' r'); [now right | exact Hn |].
    simpl in Hb. now apply le_bound_le with (b := t r0).
Qed.

(** ** [hittable_list::hit] *)

(** C1.  For bounds [t_min <= t_max], a reported hit of the aggregate is the
    hit of one of its children in [[t_min, t_max]], and no child has a hit
    in that range with a smaller [t]; the aggregate reports no hit exactly
    when no child has a hit in the range; and neither the answer nor the
    [t] reported changes when the children are inserted in another
    order. *)
Theorem hittable_list_hit_nearest (objects : list hittable) (r : ray)
    (t_min : R) (t_max : ebound) (rec : hit_record) :
  le_bound t_min t_max ->
  (forall rec',
      hit (HList objects) r t_min t_max rec = (true, rec') ->
      in_range (t rec') t_min t_max /\
      (exists o, In o objects /\
                 forall rec0, hit o r t_min t_max rec0 = (true, rec')) /\
      (forall o rec0 ro,
          In o objects -> hit o r t_min t_max rec0 = (true, ro) ->
          t rec' <= t ro)) /\
  (fst (hit (HList objects) r t_min t_max rec) = false <->
   forall o rec0, In o objects -> fst (hit o r t_min t_max rec0) = false) /\
  (forall objects',
      Permutation objects objects' ->
      fst (hit (HList objects') r t_min t_max rec)
      = fst (hit (HList objects) r t_min t_max rec) /\
      (fst (hit (HList objects) r t_min t_max rec) = true ->
       t (snd (hit (HList objects') r t_min t_max rec))
       = t (snd (hit (HList objects) r t_min t_max rec)))).
Proof.
  intros _.
  set (near := fun o => nearest_from o r t_min).
  assert (Hnone : forall objs,
    fst (hit (HList objs) r t_min t_max rec) = false <->
    forall o rec0, In o objs -> fst (hit o r t_min t_max rec0) = false).
  { intros objs. rewrite hit_list_best. fold near.
    destruct (best_below near objs t_max) as [rc |] eqn:B; simpl.
    - split; [discriminate|]. intros H. exfalso.
      destruct (best_below_in _ _ _ _ B) as [o [Ho Hn]].
      specialize (H o rec Ho). rewrite hit_false_iff in H.
      apply (H rc Hn). now apply best_below_bound in B.
    - split; [| reflexivity]. intros _ o rec0 Ho.
      apply hit_false_iff. intros ro Hn.
      now apply (proj1 (best_below_none near objs t_max) B o ro). }
  split; [| split; [apply Hnone |]].
  - intros rec' H. split; [now apply hit_in_range in H |].
    rewrite hit_list_best in H. fold near in H.
    destruct (best_below near objects t_max) as [rc |] eqn:B;
      [| discriminate].
    injection H as <-. split.
    + destruct (best_below_in _ _ _ _ B) as [o [Ho Hn]].
      exists o. split; [exact Ho |]. intros rec0.
      apply hit_true_iff. split; [exact Hn |].
      now apply best_below_bound in B.
    + intros o rec0 ro Ho Hh. apply hit_true_iff in Hh.
      destruct Hh as [Hn Hb].
      now apply (best_below_least near objects t_max rc B o ro).
  - intros objects' Hperm.
    assert (Hfst : fst (hit (HList objects') r t_min t_max rec)
                   = fst (hit (HList objects) r t_min t_max rec)).
    { destruct (fst (hit (HList objects) r t_min t_max rec)) eqn:F.
      - destruct (fst (hit (HList objects') r t_min t_max rec)) eqn:F';
          [reflexivity |].
        rewrite Hnone in F'.
        assert (X : fst (hit (HList objects) r t_min t_max rec) = false).
        { apply Hnone. intros o rec0 Ho. apply F'.
          now apply Permutation_in with (l := objects). }
        congruence.
      - apply Hnone. rewrite Hnone in F. intros o rec0 Ho. apply F.
        apply Permutation_in with (l := objects'); auto.
        now apply Permutation_sym. }
    split; [exact Hfst |].
    intros F. rewrite F in Hfst. revert F Hfst.
    rewrite !hit_list_best. fold near.
    destruct (best_below near objects t_max) as [rc |] eqn:B;
      [| discriminate].
    destruct (best_below near objects' t_max) as [rc' |] eqn:B';
      [| discriminate].
    intros _ _. simpl.
    destruct (best_below_in _ _ _ _ B) as [o [Ho Hn]].
    destruct (best_below_in _ _ _ _ B') as [o' [Ho' Hn']].
    pose proof (best_below_bound _ _ _ _ B) as Hb.
    pose proof (best_below_bound _ _ _ _ B') as Hb'.
    assert (A1 : t rc <= t rc').
    { apply (best_below_least near objects t_max rc B o' rc'); auto.
      apply Permutation_in with (l := objects'); auto.
      now apply Permutation_sym. }
    assert (A2 : t rc' <= t rc).
    { apply (best_below_least near objects' t_max rc' B' o rc); auto.
      now apply Permutation_in with (l := objects). }
    lra.
Qed.

Lemma hittable_list_hit_nearest_witness :
  let objects := [HSphere ball_red; HSphere ball_mirror] in
  let rec := hit_record_default in
  (forall rec',
      hit (HList objects) ray_in 0 infinity rec = (true, rec') ->
      in_range (t rec') 0 infinity /\
      (exists o, In o objects /\
                 forall rec0, hit o ray_in 0 infinity rec0 = (true, rec')) /\
      (forall o rec0 ro,
          In o objects -> hit o ray_in 0 infinity rec0 = (true, ro) ->
          t rec' <= t ro)) /\
  (fst (hit (HList objects) ray_in 0 infinity rec) = false <->
   forall o rec0, In o objects -> fst (hit o ray_in 0 infinity rec0) = false) /\
  (forall objects',
      Permutation objects objects' ->
      fst (hit (HList objects') ray_in 0 infinity rec)
      = fst (hit (HList objects) ray_in 0 infinity rec) /\
      (fst (hit (HList objects) ray_in 0 infinity rec) = true ->
       t (snd (hit (HList objects') ray_in 0 infinity rec))
       = t (snd (hit (HList objects) ray_in 0 infinity rec)))).
Proof.
  cbv zeta.
  apply (hittable_list_hit_nearest
           [HSphere ball_red; HSphere ball_mirror] ray_in 0 infinity
           hit_record_default).
  exact I.
Defined.

(** ** Ties in [hittable_list::hit] *)

(** A child whose nearest hit lies at or below [closest_so_far] is
    accepted by the call the scan makes, also when it lies exactly at
    [closest_so_far]. *)
Lemma hit_accepts_up_to_bound (o : hittable) r t_min wide closest temp_rec ro :
  hit o r t_min wide temp_rec = (true, ro) ->
  (le_bound (t ro) closest -> hit o r t_min closest temp_rec = (true, ro)) /\
  (~ le_bound (t ro) closest ->
   hit o r t_min closest temp_rec = (false, temp_rec)).
Proof.
  intros H. apply hit_true_iff in H. destruct H as [Hn _].
  rewrite hit_is_hit_within, Hn. unfold hit_within. split; intros Hb.
  - apply leb_bound_true in Hb. now rewrite Hb.
  - apply leb_bound_false in Hb. now rewrite Hb.
Qed.

(** The child that ends the scan is the last one among those with the
    smallest [t]. *)
Lemma hit_list_last_wins (pre post : list hittable) (o : hittable)
    r t_min t_max rec ro :
  hit o r t_min t_max rec = (true, ro) ->
  (forall o' r', In o' pre -> hit o' r t_min t_max rec = (true, r') ->
                 t ro <= t r') ->
  (forall o' r', In o' post -> hit o' r t_min t_max rec = (true, r') ->
                 t ro < t r') ->
  hit (HList (pre ++ o :: post)) r t_min t_max rec = (true, ro).
Proof.
  intros Ho Hpre Hpost. apply hit_true_iff in Ho. destruct Ho as [Hn Hb].
  rewrite hit_list_best.
  rewrite (best_below_last (fun o => nearest_from o r t_min) pre post o ro);
    auto.
  - intros o' r' Ho' Hn'.
    destruct (leb_bound (t r') t_max) eqn:E.
    + apply leb_bound_true in E. apply (Hpost o' r' Ho').
      apply hit_true_iff. auto.
    + apply leb_bound_false in E. destruct t_max; simpl in *; [lra | tauto].
  - intros o' r' Ho' Hn' Hb'. apply (Hpre o' r' Ho').
    apply hit_true_iff. auto.
Qed.

Lemma twins_hit :
  hit twins ray_in 0 infinity hit_record_default
  = (true, sphere_fill ball_mirror ray_in 2 hit_record_default).
Proof.
  apply (hit_list_last_wins [HSphere ball_red] [] (HSphere ball_mirror)).
  - simpl. apply ray_in_hits; simpl; auto.
  - intros o' r' [<- | []]. simpl.
    rewrite ray_in_hits by (simpl; auto). intros [= <-]. simpl. lra.
  - intros o' r' [].
Qed.

(** C2, as stated, fails: of two children with hits at the same [t], the
    first does not provide the record. *)
Lemma first_seen_does_not_win :
  ~ (forall (o1 o2 : hittable) (r : ray) (t_min : R) (t_max : ebound)
            (rec r1 r2 : hit_record),
        hit o1 r t_min t_max rec = (true, r1) ->
        hit o2 r t_min t_max rec = (true, r2) ->
        t r1 = t r2 ->
        hit (HList [o1; o2]) r t_min t_max rec = (true, r1)).
Proof.
  intros H.
  specialize (H (HSphere ball_red) (HSphere ball_mirror) ray_in 0 infinity
                hit_record_default
                (sphere_fill ball_red ray_in 2 hit_record_default)
                (sphere_fill ball_mirror ray_in 2 hit_record_default)).
  assert (E : hit twins ray_in 0 infinity hit_record_default
              = (true, sphere_fill ball_red ray_in 2 hit_record_default)).
  { apply H.
    - simpl. apply ray_in_hits; simpl; auto.
    - simpl. apply ray_in_hits; simpl; auto.
    - reflexivity. }
  rewrite twins_hit in E.
  assert (M : mat_ptr (sphere_fill ball_mirror ray_in 2 hit_record_default)
              = mat_ptr (sphere_fill ball_red ray_in 2 hit_record_default))
    by congruence.
  simpl in M. discriminate M.
Qed.

(** C2, amended.  In the scan, a later child's candidate replaces the
    current best exactly when its [t] is not greater than
    [closest_so_far]: a candidate at exactly [closest_so_far] replaces it
    too.  So when several children have hits at the smallest [t], the last
    of them in insertion order provides the returned record. *)
Theorem hittable_list_hit_last_seen_wins (r : ray) (t_min : R)
    (t_max : ebound) (rec : hit_record) :
  let scan := hit_loop (fun object closest_so_far temp_rec =>
                          hit object r t_min closest_so_far temp_rec) in
  (forall o rest temp_rec hit_anything closest_so_far rec0 wide ro,
      hit o r t_min wide temp_rec = (true, ro) ->
      (le_bound (t ro) closest_so_far ->
       scan (o :: rest) temp_rec hit_anything closest_so_far rec0
       = scan rest ro true (Finite (t ro)) ro) /\
      (~ le_bound (t ro) closest_so_far ->
       scan (o :: rest) temp_rec hit_anything closest_so_far rec0
       = scan rest temp_rec hit_anything closest_so_far rec0)) /\
  (forall pre o post ro,
      hit o r t_min t_max rec = (true, ro) ->
      (forall o' r', In o' pre -> hit o' r t_min t_max rec = (true, r') ->
                     t ro <= t r') ->
      (forall o' r', In o' post -> hit o' r t_min t_max rec = (true, r') ->
                     t ro < t r') ->
      hit (HList (pre ++ o :: post)) r t_min t_max rec = (true, ro)).
Proof.
  cbv zeta. split.
  - intros o rest temp_rec ha closest rec0 wide ro H.
    destruct (hit_accepts_up_to_bound o r t_min wide closest temp_rec ro H)
      as [Hle Hgt].
    split; intros Hb; simpl.
    + now rewrite (Hle Hb).
    + now rewrite (Hgt Hb).
  - intros pre o post ro. apply hit_list_last_wins.
Qed.

(** The twin spheres are hit at the same [t]; the record is the one of
    the sphere inserted last, in either order. *)
Example twins_swapped_hit :
  hit twins_swapped ray_in 0 infinity hit_record_default
  = (true, sphere_fill ball_red ray_in 2 hit_record_default).
Proof.
  apply (hit_list_last_wins [HSphere ball_mirror] [] (HSphere ball_red)).
  - simpl. apply ray_in_hits; simpl; auto.
  - intros o' r' [<- | []]. simpl.
    rewrite ray_in_hits by (simpl; auto). intros [= <-]. simpl. lra.
  - intros o' r' [].
Qed.

(** ** [ray_color] *)

(** C6.  With [depth <= 0], [ray_color] returns the colour (0,0,0) for
    every ray and every world, whether or not the ray would hit
    anything; it draws no random number. *)
Theorem ray_color_no_depth (RAND_MAX : Z) (rounds : nat) (r : ray)
    (world : hittable) (depth : Z) (s : rand_state) :
  (depth <= 0)%Z ->
  ray_color RAND_MAX rounds r world depth s = inr (Vec3 0 0 0, s).
Proof.
  intros H. unfold ray_color.
  apply Z.leb_le in H.
  destruct (Z.to_nat depth); simpl; rewrite H; reflexivity.
Qed.

Lemma ray_color_no_depth_witness :
  ray_color rand_max_3 0 ray_in twins 0 always_one
  = inr (Vec3 0 0 0, always_one).
Proof.
  apply (ray_color_no_depth rand_max_3 0 ray_in twins 0 always_one). lia.
Defined.

(** ** [metal::scatter] *)

Lemma bind_inr {A B : Type} (c : M A) (k : A -> M B) s b s' :
  bind c k s = inr (b, s') ->
  exists a s0, c s = inr (a, s0) /\ k a s0 = inr (b, s').
Proof.
  unfold bind. destruct (c s) as [e | [a s0]]; [discriminate |].
  intros H. exists a, s0. auto.
Qed.

(** C9.  [metal::scatter] stores the albedo in [attenuation] and the
    fuzzed reflected ray in [scattered] before it evaluates the sign test:
    whatever it returns, and so also when it returns false, the caller's
    two variables hold these values after the call, not the ones they
    held before. *)
Theorem metal_scatter_writes_first (RAND_MAX : Z) (rounds : nat) (m : metal)
    (r_in : ray) (rec : hit_record) (attenuation : color) (scattered : ray)
    (s s' : rand_state) (b : bool) (attenuation' : color) (scattered' : ray) :
  metal_scatter RAND_MAX rounds m r_in rec attenuation scattered s
  = inr (b, attenuation', scattered', s') ->
  exists q,
    random_in_unit_sphere RAND_MAX rounds s = inr (q, s') /\
    attenuation' = albedo m /\
    scattered' = Ray (p rec)
                     (reflect (unit_vector (direction r_in)) (normal rec)
                      +^ fuzz m *^ q) /\
    b = gtb (dot (direction scattered') (normal rec)) 0.
Proof.
  unfold metal_scatter. intros H.
  apply bind_inr in H. destruct H as [q [s0 [Hq H]]].
  unfold ret in H. injection H as <- <- <- <-.
  exists q. repeat split. exact Hq.
Qed.

Lemma brushed_fuzz : fuzz brushed = 1.
Proof.
  unfold brushed, metal_new; simpl.
  assert (E : ltb 1 1 = false) by (apply ltb_false; lra).
  now rewrite E.
Qed.

Lemma always_one_double :
  random_double rand_max_3 always_one = inr (1 / (3 + 1), always_one).
Proof. reflexivity. Qed.

Lemma always_one_range (lo hi : R) :
  random_double_range rand_max_3 lo hi always_one
  = inr (lo + (hi - lo) * (1 / (3 + 1)), always_one).
Proof. reflexivity. Qed.

Lemma always_one_sphere (rounds : nat) :
  random_in_unit_sphere rand_max_3 (S rounds) always_one
  = inr (Vec3 (-1 + (1 - -1) * (1 / (3 + 1)))
              (-1 + (1 - -1) * (1 / (3 + 1)))
              (-1 + (1 - -1) * (1 / (3 + 1))), always_one).
Proof.
  cbn [random_in_unit_sphere]. unfold vec3_random_range, bind.
  rewrite !always_one_range. unfold ret.
  assert (E : ltb (length_squared
                     (Vec3 (-1 + (1 - -1) * (1 / (3 + 1)))
                           (-1 + (1 - -1) * (1 / (3 + 1)))
                           (-1 + (1 - -1) * (1 / (3 + 1))))) 1 = true).
  { apply ltb_true. unfold length_squared; simpl. lra. }
  now rewrite E.
Qed.

(** The grazing ray is absorbed by the brushed metal, and the caller's
    [attenuation] and [scattered] have been overwritten all the same. *)
Lemma metal_scatter_grazing (attenuation : color) (scattered : ray) :
  exists attenuation' scattered',
    metal_scatter rand_max_3 1 brushed ray_grazing rec_grazing
                  attenuation scattered always_one
    = inr (false, attenuation', scattered', always_one) /\
    attenuation' = Vec3 1 1 1 /\
    orig scattered' = Vec3 1 0 0.
Proof.
  unfold metal_scatter, bind. rewrite always_one_sphere. unfold ret.
  match goal with
  | |- context [gtb ?d 0] =>
      assert (E : gtb d 0 = false)
        by (apply gtb_false; rewrite brushed_fuzz; vec3_unfold; lra);
      rewrite E
  end.
  do 2 eexists. split; [reflexivity | split; reflexivity].
Qed.

Lemma metal_scatter_writes_first_witness :
  exists q,
    random_in_unit_sphere rand_max_3 1 always_one = inr (q, always_one) /\
    Vec3 1 1 1 = albedo brushed /\
    Ray (Vec3 1 0 0)
        (reflect (unit_vector (direction ray_grazing)) (normal rec_grazing)
         +^ fuzz brushed
            *^ Vec3 (-1 + (1 - -1) * (1 / (3 + 1)))
                    (-1 + (1 - -1) * (1 / (3 + 1)))
                    (-1 + (1 - -1) * (1 / (3 + 1))))
    = Ray (p rec_grazing)
          (reflect (unit_vector (direction ray_grazing)) (normal rec_grazing)
           +^ fuzz brushed *^ q) /\
    false
    = gtb (dot (direction
                  (Ray (Vec3 1 0 0)
                     (reflect (unit_vector (direction ray_grazing))
                              (normal rec_grazing)
                      +^ fuzz brushed
                         *^ Vec3 (-1 + (1 - -1) * (1 / (3 + 1)))
                                 (-1 + (1 - -1) * (1 / (3 + 1)))
                                 (-1 + (1 - -1) * (1 / (3 + 1))))))
               (normal rec_grazing)) 0.
Proof.
  apply (metal_scatter_writes_first rand_max_3 1 brushed ray_grazing
           rec_grazing (Vec3 0 0 0) (Ray (Vec3 0 0 0) (Vec3 0 0 0))
           always_one always_one).
  unfold metal_scatter, bind. rewrite always_one_sphere. unfold ret.
  repeat f_equal.
  apply gtb_false. rewrite brushed_fuzz. vec3_unfold. lra.
Defined.

(** ** Three spheres along the ray *)

Lemma ray_in_on_axis (cx : R) (m : material) (t_max : ebound)
    (rec : hit_record) :
  0 <= 2 - cx -> le_bound (2 - cx) t_max ->
  sphere_hit (sphere_on_axis cx m) ray_in 0 t_max rec
  = (true, sphere_fill (sphere_on_axis cx m) ray_in (2 - cx) rec).
Proof.
  intros H0 Hm.
  assert (Hb : quad_half_b (sphere_on_axis cx m) ray_in = cx - 3)
    by (unfold quad_half_b; vec3_unfold; lra).
  assert (Hd : quad_discriminant (sphere_on_axis cx m) ray_in = 1).
  { unfold quad_discriminant. rewrite Hb, ray_in_a.
    unfold quad_c; vec3_unfold; lra. }
  assert (Hr : root_minus (sphere_on_axis cx m) ray_in = 2 - cx)
    by (unfold root_minus; rewrite Hd, Hb, ray_in_a, sqrt_1; lra).
  rewrite <- Hr. apply sphere_hit_minus.
  - rewrite Hd; lra.
  - rewrite Hr. split; [lra | exact Hm].
Qed.

Lemma on_axis_hit_t (cx : R) (m : material) (rec rc : hit_record) :
  0 <= 2 - cx ->
  hit (HSphere (sphere_on_axis cx m)) ray_in 0 infinity rec = (true, rc) ->
  t rc = 2 - cx.
Proof.
  intros H0. simpl. rewrite ray_in_on_axis by (simpl; auto).
  now intros [= <-].
Qed.

(** Whatever the insertion order, the scan reports the sphere that is
    nearest along the ray. *)
Example three_spheres_nearest (objects : list hittable) :
  objects = [near_sphere; mid_sphere; far_sphere] \/
  objects = [far_sphere; mid_sphere; near_sphere] \/
  objects = [mid_sphere; near_sphere; far_sphere] ->
  let answer := hit (HList objects) ray_in 0 infinity hit_record_default in
  fst answer = true /\ t (snd answer) = 2 /\ mat_ptr (snd answer) = Some red.
Proof.
  assert (Hn : forall rec,
    hit near_sphere ray_in 0 infinity rec
    = (true, sphere_fill (sphere_on_axis 0 red) ray_in (2 - 0) rec))
    by (intros rec; simpl; apply ray_in_on_axis; simpl; auto; lra).
  assert (Hm : forall rec rc,
    hit mid_sphere ray_in 0 infinity rec = (true, rc) -> t rc = 5)
    by (intros rec rc H; apply on_axis_hit_t in H; lra).
  assert (Hf : forall rec rc,
    hit far_sphere ray_in 0 infinity rec = (true, rc) -> t rc = 8)
    by (intros rec rc H; apply on_axis_hit_t in H; lra).
  assert (K : forall pre post,
    (forall o, In o pre -> o = mid_sphere \/ o = far_sphere) ->
    (forall o, In o post -> o = mid_sphere \/ o = far_sphere) ->
    hit (HList (pre ++ near_sphere :: post)) ray_in 0 infinity
        hit_record_default
    = (true, sphere_fill (sphere_on_axis 0 red) ray_in (2 - 0)
               hit_record_default)).
  { intros pre post Hpre Hpost. apply hit_list_last_wins.
    - apply Hn.
    - intros o' r' Ho' Hh. simpl.
      destruct (Hpre o' Ho') as [-> | ->];
        [apply Hm in Hh | apply Hf in Hh]; lra.
    - intros o' r' Ho' Hh. simpl.
      destruct (Hpost o' Ho') as [-> | ->];
        [apply Hm in Hh | apply Hf in Hh]; lra. }
  intros [-> | [-> | ->]]; cbv zeta.
  - pose proof (K [] [mid_sphere; far_sphere]) as X. simpl app in X.
    rewrite X; simpl; [repeat split; try reflexivity; lra | intuition ..].
  - pose proof (K [far_sphere; mid_sphere] []) as X. simpl app in X.
    rewrite X; simpl; [repeat split; try reflexivity; lra | intuition ..].
  - pose proof (K [mid_sphere] [far_sphere]) as X. simpl app in X.
    rewrite X; simpl; [repeat split; try reflexivity; lra | intuition ..].
Qed.

(** ** The model's recursion counter *)

Lemma random_double_ok (RAND_MAX : Z) (s : rand_state) :
  exists u s', random_double RAND_MAX s = inr (u, s').
Proof. unfold random_double. simpl. eauto. Qed.

Lemma bind_inl {A B : Type} (c : M A) (k : A -> M B) s e :
  bind c k s = inl e ->
  c s = inl e \/ exists a s0, c s = inr (a, s0) /\ k a s0 = inl e.
Proof.
  unfold bind. destruct (c s) as [e0 | [a s0]].
  - intros [= <-]. now left.
  - intros H. right. exists a, s0. auto.
Qed.

Lemma random_double_range_ok (RAND_MAX : Z) (lo hi : R) (s : rand_state) :
  exists u s', random_double_range RAND_MAX lo hi s = inr (u, s').
Proof. unfold random_double_range, bind, random_double, ret. simpl. eauto. Qed.

Lemma vec3_random_range_ok (RAND_MAX : Z) (lo hi : R) (s : rand_state) :
  exists q s', vec3_random_range RAND_MAX lo hi s = inr (q, s').
Proof.
  unfold vec3_random_range, bind, random_double_range, random_double, ret.
  simpl. eauto.
Qed.

(** A rejection loop stops without a value only for want of rounds. *)
Lemma random_in_unit_sphere_failure (RAND_MAX : Z) (rounds : nat) :
  forall s e,
    random_in_unit_sphere RAND_MAX rounds s = inl e -> e = rounds_exhausted.
Proof.
  induction rounds as [| rounds IH]; intros s e; simpl.
  - now intros [= <-].
  - intros H. apply bind_inl in H. destruct H as [H | [q [s0 [_ H]]]].
    + destruct (vec3_random_range_ok RAND_MAX (-1) 1 s) as [q [s' E]].
      rewrite E in H. discriminate.
    + destruct (negb (ltb (length_squared q) 1)); [now apply IH in H |].
      discriminate.
Qed.

Lemma scatter_failure (RAND_MAX : Z) (rounds : nat) (m : material)
    r_in rec attenuation scattered s e :
  scatter RAND_MAX rounds m r_in rec attenuation scattered s = inl e ->
  e = rounds_exhausted.
Proof.
  destruct m as [l | l | l]; simpl.
  - unfold lambertian_scatter, random_unit_vector. intros H.
    apply bind_inl in H. destruct H as [H | [q [s0 [_ H]]]]; [| discriminate].
    apply bind_inl in H. destruct H as [H | [q [s0 [_ H]]]]; [| discriminate].
    now apply random_in_unit_sphere_failure in H.
  - unfold metal_scatter. intros H.
    apply bind_inl in H. destruct H as [H | [q [s0 [_ H]]]]; [| discriminate].
    now apply random_in_unit_sphere_failure in H.
  - unfold dielectric_scatter. intros H.
    apply bind_inl in H. destruct H as [H | [q [s0 [_ H]]]]; [| discriminate].
    match type of H with
    | (if ?c then _ else _) _ = _ => destruct c; [discriminate |]
    end.
    unfold bind, random_double, ret in H. simpl in H. discriminate.
Qed.

(** Started at [Z.to_nat depth], the counter of [ray_color_rec] is never
    the reason for stopping: [ray_color] fails only where the program has
    no defined result either. *)
Lemma ray_color_rec_counter (RAND_MAX : Z) (rounds : nat) (world : hittable)
    (n : nat) :
  forall r depth s,
    (depth <= Z.of_nat n)%Z ->
    ray_color_rec RAND_MAX n rounds r world depth s <> inl depth_exhausted.
Proof.
  induction n as [| n IH]; intros r depth s Hd.
  - simpl. assert (E : (depth <=? 0)%Z = true) by (apply Z.leb_le; lia).
    rewrite E. discriminate.
  - cbn [ray_color_rec].
    destruct (depth <=? 0)%Z; [discriminate |].
    destruct (hit world r (1 / 1000) infinity hit_record_default)
      as [[|] rec]; [| discriminate].
    destruct (mat_ptr rec) as [m |]; [| discriminate].
    intros H. apply bind_inl in H.
    destruct H as [H | [[[b att] sc] [s0 [_ H]]]].
    + apply scatter_failure in H. discriminate.
    + destruct b; [| discriminate].
      apply bind_inl in H. destruct H as [H | [c [s1 [_ H]]]]; [| discriminate].
      revert H. apply IH. lia.
Qed.

Lemma ray_color_counter (RAND_MAX : Z) (rounds : nat) (r : ray)
    (world : hittable) (depth : Z) (s : rand_state) :
  ray_color RAND_MAX rounds r world depth s <> inl depth_exhausted.
Proof.
  unfold ray_color. apply ray_color_rec_counter. lia.
Qed.

(** With one bounce allowed, a ray that misses the world gets the colour
    of the sky. *)
Example ray_color_sky (rounds : nat) (s : rand_state) :
  ray_color rand_max_3 rounds ray_away (HSphere ball_red) 1 s
  = inr (Vec3 (1 / 2) (7 / 10) 1, s).
Proof.
  unfold ray_color. change (Z.to_nat 1) with 1%nat. cbn [ray_color_rec].
  change (1 <=? 0)%Z with false. cbv iota.
  cbn [hit]. rewrite ray_away_misses. unfold ret.
  assert (L : length (direction ray_away) = 1).
  { unfold length, length_squared; simpl.
    replace (0 * 0 + 1 * 1 + 0 * 0) with 1 by lra. apply sqrt_1. }
  unfold unit_vector. rewrite L. vec3_unfold.
  do 2 f_equal. f_equal; lra.
Qed.

(** * Further properties of the code *)

(** ** vec3.hpp: products, [unit_vector], [reflect], [refract] *)

Lemma dot_comm (u v : vec3) : dot u v = dot v u.
Proof. unfold dot. ring. Qed.

Lemma dot_neg_l (u v : vec3) : dot (vec3_neg u) v = - dot u v.
Proof. unfold dot, vec3_neg; simpl. ring. Qed.


Lemma length_squared_nonneg (v : vec3) : 0 <= length_squared v.
Proof. unfold length_squared. nra. Qed.

Lemma length_squared_scale (k : R) (v : vec3) :
  length_squared (k *^ v) = k * k * length_squared v.
Proof. unfold length_squared, vec3_scale; simpl. ring. Qed.



Lemma length_positive (v : vec3) : length_squared v <> 0 -> 0 < length v.
Proof.
  intros H. unfold length. apply sqrt_lt_R0.
  pose proof (length_squared_nonneg v). lra.
Qed.

Lemma length_sqr (v : vec3) : length v * length v = length_squared v.
Proof. unfold length. apply sqrt_sqrt. apply length_squared_nonneg. Qed.

Lemma unit_vector_length_squared (v : vec3) :
  length_squared v <> 0 -> length_squared (unit_vector v) = 1.
Proof.
  intros H. pose proof (length_positive v H) as Hl.
  unfold unit_vector, vec3_div. rewrite length_squared_scale, <- (length_sqr v).
  field. lra.
Qed.

(** ** sphere.hpp: the geometry of a hit *)






(** X6.  The normal stored by an accepted hit never points along the
    ray: [dot(r.direction, rec.normal) <= 0], strictly below 0 on a front
    face. *)
Theorem sphere_hit_normal_against_ray (s : sphere) (r : ray) (t_min : R)
    (t_max : ebound) (rec rec' : hit_record) :
  sphere_hit s r t_min t_max rec = (true, rec') ->
  dot (direction r) (normal rec') <= 0 /\
  (front_face rec' = true -> dot (direction r) (normal rec') < 0).
Proof.
  intros H. apply sphere_hit_true_inv in H. destruct H as [root [-> _]].
  set (on := (ray_at r root -^ center s) /^ radius s).
  change (normal (sphere_fill s r root rec))
    with (if ltb (dot (direction r) on) 0 then on else vec3_neg on).
  change (front_face (sphere_fill s r root rec))
    with (ltb (dot (direction r) on) 0).
  destruct (ltb (dot (direction r) on) 0) eqn:E.
  - apply ltb_true in E. split; [lra | auto].
  - apply ltb_false in E. split; [| discriminate].
    rewrite dot_comm, dot_neg_l, dot_comm. lra.
Qed.

Lemma sphere_hit_normal_against_ray_witness :
  let rec' := sphere_fill ball_red ray_inside 1 hit_record_default in
  dot (direction ray_inside) (normal rec') <= 0 /\
  (front_face rec' = true -> dot (direction ray_inside) (normal rec') < 0).
Proof.
  apply (sphere_hit_normal_against_ray ball_red ray_inside 0 infinity
           hit_record_default).
  apply ray_inside_hits.
Defined.

(** ** hittable.hpp and hittable_list.hpp: the contract of [hit] *)

(** X8.  For every hittable, sphere or list: a miss returns the caller's
    record as it was passed in; a hit reports a [t] in [[t_min, t_max]] and
    writes a record that does not depend on what the caller's record held
    before. *)
Theorem hit_record_contract (h : hittable) (r : ray) (t_min : R)
    (t_max : ebound) (rec : hit_record) :
  (fst (hit h r t_min t_max rec) = false ->
   snd (hit h r t_min t_max rec) = rec) /\
  (forall rec',
      hit h r t_min t_max rec = (true, rec') ->
      in_range (t rec') t_min t_max /\
      forall rec2, hit h r t_min t_max rec2 = (true, rec')).
Proof.
  split.
  - rewrite hit_is_hit_within. unfold hit_within.
    destruct (nearest_from h r t_min) as [rn |]; [| reflexivity].
    destruct (leb_bound (t rn) t_max); [discriminate | reflexivity].
  - intros rec' H. split; [now apply hit_in_range in H |].
    intros rec2. apply hit_true_iff. now apply hit_true_iff in H.
Qed.

(** X9.  Lowering the upper bound only filters the answer: under a bound
    [c' <= c], [hit] reports the hit it reports under [c] when that hit
    still passes [c'], and a miss otherwise; it never reports another
    hit. *)
Theorem hit_narrower_bound (h : hittable) (r : ray) (t_min : R)
    (c' c : ebound) (rec : hit_record) :
  bound_le c' c ->
  (forall rc, hit h r t_min c rec = (true, rc) ->
              (le_bound (t rc) c' -> hit h r t_min c' rec = (true, rc)) /\
              (~ le_bound (t rc) c' -> hit h r t_min c' rec = (false, rec))) /\
  (fst (hit h r t_min c rec) = false -> hit h r t_min c' rec = (false, rec)).
Proof.
  intros Hc. split.
  - intros rc H. now apply hit_accepts_up_to_bound with (wide := c).
  - rewrite !hit_is_hit_within. unfold hit_within.
    destruct (nearest_from h r t_min) as [rn |]; [| reflexivity].
    destruct (leb_bound (t rn) c) eqn:E; [discriminate |]. intros _.
    destruct (leb_bound (t rn) c') eqn:E'; [| reflexivity].
    apply leb_bound_true in E'. apply leb_bound_false in E.
    exfalso. apply E. now apply le_bound_trans with (c' := c').
Qed.

Lemma hit_narrower_bound_witness :
  (forall rc, hit twins ray_in 0 infinity hit_record_default = (true, rc) ->
              (le_bound (t rc) (Finite 1) ->
               hit twins ray_in 0 (Finite 1) hit_record_default = (true, rc)) /\
              (~ le_bound (t rc) (Finite 1) ->
               hit twins ray_in 0 (Finite 1) hit_record_default
               = (false, hit_record_default))) /\
  (fst (hit twins ray_in 0 infinity hit_record_default) = false ->
   hit twins ray_in 0 (Finite 1) hit_record_default
   = (false, hit_record_default)).
Proof.
  apply (hit_narrower_bound twins ray_in 0 (Finite 1) infinity
           hit_record_default).
  exact I.
Defined.

Lemma best_below_app near (l1 l2 : list hittable) :
  forall c,
    best_below near (l1 ++ l2) c
    = match best_below near l1 c with
      | Some r1 =>
          match best_below near l2 (Finite (t r1)) with
          | Some r2 => Some r2
          | None => Some r1
          end
      | None => best_below near l2 c
      end.
Proof.
  induction l1 as [| o l1 IH]; intros c; simpl; [reflexivity |].
  destruct (near o) as [ro |]; [| apply IH].
  destruct (leb_bound (t ro) c); [| apply IH].
  rewrite IH.
  destruct (best_below near l1 (Finite (t ro))) as [r1 |]; [| reflexivity].
  now destruct (best_below near l2 (Finite (t r1))).
Qed.

Lemma nearest_from_list (objects : list hittable) r t_min :
  nearest_from (HList objects) r t_min
  = best_below (fun o => nearest_from o r t_min) objects infinity.
Proof.
  unfold nearest_from at 1. rewrite hit_list_best.
  now destruct (best_below (fun o => nearest_from o r t_min) objects infinity).
Qed.

Lemma best_below_inline (inner post : list hittable) r t_min :
  forall c,
    best_below (fun o => nearest_from o r t_min) (HList inner :: post) c
    = best_below (fun o => nearest_from o r t_min) (inner ++ post) c.
Proof.
  intros c. rewrite best_below_app. cbn [best_below].
  rewrite nearest_from_list.
  rewrite (best_below_narrow _ inner c infinity (bound_le_infinity c)).
  destruct (best_below (fun o => nearest_from o r t_min) inner infinity)
    as [rn |]; [| reflexivity].
  now destruct (leb_bound (t rn) c).
Qed.

(** X10.  A list nested in a list behaves as its members in its place:
    the aggregate answers the same whether a group of objects is inserted
    as one [hittable_list] or object by object. *)
Theorem hit_list_flatten (pre inner post : list hittable) (r : ray)
    (t_min : R) (t_max : ebound) (rec : hit_record) :
  hit (HList (pre ++ HList inner :: post)) r t_min t_max rec
  = hit (HList (pre ++ inner ++ post)) r t_min t_max rec.
Proof.
  rewrite !hit_list_best.
  rewrite (best_below_app _ pre (HList inner :: post)).
  rewrite (best_below_app _ pre (inner ++ post)).
  destruct (best_below (fun o => nearest_from o r t_min) pre t_max) as [r1 |];
    now rewrite best_below_inline.
Qed.

(** X11.  [add] appends at the end of the scan: adding an object the ray
    misses in the range leaves the aggregate's answer as it was, adding an
    object never turns a hit into a miss, and after [clear] every query is
    a miss that leaves the record alone. *)
Theorem hittable_list_add_clear (objects : list hittable) (object : hittable)
    (r : ray) (t_min : R) (t_max : ebound) (rec : hit_record) :
  (fst (hit object r t_min t_max rec) = false ->
   hit (HList (hittable_list_add objects object)) r t_min t_max rec
   = hit (HList objects) r t_min t_max rec) /\
  (fst (hit (HList objects) r t_min t_max rec) = true ->
   fst (hit (HList (hittable_list_add objects object)) r t_min t_max rec)
   = true) /\
  hit (HList (hittable_list_clear objects)) r t_min t_max rec = (false, rec).
Proof.
  unfold hittable_list_add, hittable_list_clear.
  rewrite !hit_list_best, best_below_app. cbn [best_below].
  set (near := fun o => nearest_from o r t_min).
  repeat split.
  - intros Hmiss. rewrite hit_false_iff in Hmiss. fold (near object).
    destruct (best_below near objects t_max) as [r1 |] eqn:B.
    + destruct (near object) as [ro |] eqn:N; [| reflexivity].
      destruct (leb_bound (t ro) (Finite (t r1))) eqn:E; [| reflexivity].
      exfalso. apply (Hmiss ro N).
      apply leb_bound_true in E. apply best_below_bound in B.
      simpl in E. now apply le_bound_le with (b := t r1).
    + destruct (near object) as [ro |] eqn:N; [| reflexivity].
      destruct (leb_bound (t ro) t_max) eqn:E; [| reflexivity].
      exfalso. apply (Hmiss ro N). now apply leb_bound_true.
  - destruct (best_below near objects t_max) as [r1 |]; [| discriminate].
    intros _. fold (near object).
    destruct (near object) as [ro |]; [| reflexivity].
    now destruct (leb_bound (t ro) (Finite (t r1))).
Qed.

(** ** rtweekend.hpp and vec3.hpp: the random helpers *)

Lemma after_draws_refl (s : rand_state) : after_draws 0 s s.
Proof. intros n. now rewrite Nat.add_0_r. Qed.


Lemma after_draws_trans (j k : nat) (s1 s2 s3 : rand_state) :
  after_draws j s1 s2 -> after_draws k s2 s3 -> after_draws (j + k) s1 s3.
Proof. intros H1 H2 n. rewrite H2, H1. f_equal. lia. Qed.

Lemma after_draws_in_range (RAND_MAX : Z) (k : nat) (s s' : rand_state) :
  rand_in_range RAND_MAX s -> after_draws k s s' -> rand_in_range RAND_MAX s'.
Proof. intros H Ha n. rewrite Ha. apply H. Qed.

Lemma random_double_eq (RAND_MAX : Z) (s : rand_state) :
  random_double RAND_MAX s
  = inr (IZR (s O) / (IZR RAND_MAX + 1), snd (rand s)).
Proof. reflexivity. Qed.

Lemma random_double_range_eq (RAND_MAX : Z) (lo hi : R) (s : rand_state) :
  random_double_range RAND_MAX lo hi s
  = inr (lo + (hi - lo) * (IZR (s O) / (IZR RAND_MAX + 1)), snd (rand s)).
Proof. reflexivity. Qed.

Lemma unit_fraction (RAND_MAX n : Z) :
  (0 <= n <= RAND_MAX)%Z -> 0 <= IZR n / (IZR RAND_MAX + 1) < 1.
Proof.
  intros [H0 H1].
  assert (A : 0 <= IZR n) by (apply IZR_le in H0; exact H0).
  assert (B : IZR n <= IZR RAND_MAX) by now apply IZR_le.
  assert (C : 0 < IZR RAND_MAX + 1) by lra.
  split.
  - apply Rmult_le_pos; [exact A |]. left. now apply Rinv_0_lt_compat.
  - apply Rmult_lt_reg_r with (r := IZR RAND_MAX + 1); [exact C |].
    unfold Rdiv. rewrite Rmult_assoc, Rinv_l by lra. lra.
Qed.


Lemma always_one_in_range : rand_in_range rand_max_3 always_one.
Proof. intros n. unfold always_one, rand_max_3. lia. Qed.


Lemma vec3_random_range_eq (RAND_MAX : Z) (lo hi : R) (s : rand_state) :
  exists q s', vec3_random_range RAND_MAX lo hi s = inr (q, s') /\
               after_draws 3 s s'.
Proof.
  unfold vec3_random_range, bind. rewrite !random_double_range_eq.
  unfold ret. do 2 eexists. split; [reflexivity |].
  intros n. simpl. f_equal. lia.
Qed.

Lemma random_in_unit_sphere_inside (RAND_MAX : Z) (rounds : nat) :
  forall s q s',
    random_in_unit_sphere RAND_MAX rounds s = inr (q, s') ->
    length_squared q < 1 /\
    exists j, (1 <= j <= rounds)%nat /\ after_draws (3 * j) s s'.
Proof.
  induction rounds as [| rounds IH]; intros s q s'; simpl; [discriminate |].
  intros H. apply bind_inr in H. destruct H as [q0 [s0 [Hq H]]].
  destruct (vec3_random_range_eq RAND_MAX (-1) 1 s) as [q1 [s1 [E A]]].
  rewrite E in Hq. injection Hq as <- <-.
  destruct (ltb (length_squared q1) 1) eqn:L; simpl in H.
  - unfold ret in H. injection H as <- <-. split; [now apply ltb_true |].
    exists 1%nat. split; [lia | exact A].
  - apply IH in H. destruct H as [Hl [j [Hj Ha]]]. split; [exact Hl |].
    exists (S j). split; [lia |].
    intros n. rewrite Ha, A. f_equal. lia.
Qed.

(** X13.  Whatever [random_in_unit_sphere] returns passed the test of the
    loop, [length_squared < 1], and was found after three values of
    [rand()] per round; nothing else is demanded of it, so it may be the
    zero vector.  [random_unit_vector] returns [unit_vector] of that very
    point and uses no further value of [rand()].  Both stop without a
    result only when the rounds given to the loop are used up. *)
Theorem random_in_unit_sphere_contract (RAND_MAX : Z) (rounds : nat)
    (s : rand_state) :
  match random_in_unit_sphere RAND_MAX rounds s with
  | inl e =>
      e = rounds_exhausted /\
      random_unit_vector RAND_MAX rounds s = inl rounds_exhausted
  | inr (q, s') =>
      length_squared q < 1 /\
      (exists j, (1 <= j <= rounds)%nat /\ after_draws (3 * j) s s') /\
      random_unit_vector RAND_MAX rounds s = inr (unit_vector q, s')
  end.
Proof.
  destruct (random_in_unit_sphere RAND_MAX rounds s) as [e | [q s']] eqn:E.
  - pose proof (random_in_unit_sphere_failure _ _ _ _ E) as ->.
    split; [reflexivity |]. unfold random_unit_vector, bind. now rewrite E.
  - destruct (random_in_unit_sphere_inside _ _ _ _ _ E) as [Hl Hj].
    split; [exact Hl |]. split; [exact Hj |].
    unfold random_unit_vector, bind. now rewrite E.
Qed.

(** The rejection test lets the zero vector through. *)
Example random_in_unit_sphere_zero :
  random_in_unit_sphere 1 1 always_one = inr (Vec3 (-1 + (1 - -1) * (1 / (1 + 1)))
                                                   (-1 + (1 - -1) * (1 / (1 + 1)))
                                                   (-1 + (1 - -1) * (1 / (1 + 1))),
                                              always_one) /\
  length_squared (Vec3 (-1 + (1 - -1) * (1 / (1 + 1)))
                       (-1 + (1 - -1) * (1 / (1 + 1)))
                       (-1 + (1 - -1) * (1 / (1 + 1)))) = 0.
Proof.
  assert (Z0 : length_squared (Vec3 (-1 + (1 - -1) * (1 / (1 + 1)))
                       (-1 + (1 - -1) * (1 / (1 + 1)))
                       (-1 + (1 - -1) * (1 / (1 + 1)))) = 0)
    by (unfold length_squared; simpl; lra).
  split; [| exact Z0].
  assert (Hr : forall lo hi,
             random_double_range 1 lo hi always_one
             = inr (lo + (hi - lo) * (1 / (1 + 1)), always_one))
    by reflexivity.
  cbn [random_in_unit_sphere]. unfold vec3_random_range, bind.
  rewrite !Hr. unfold ret.
  assert (E : ltb (length_squared (Vec3 (-1 + (1 - -1) * (1 / (1 + 1)))
                       (-1 + (1 - -1) * (1 / (1 + 1)))
                       (-1 + (1 - -1) * (1 / (1 + 1))))) 1 = true)
    by (apply ltb_true; rewrite Z0; lra).
  now rewrite E.
Qed.

Lemma random_in_unit_disk_inside (RAND_MAX : Z) (rounds : nat) :
  forall s,
    match random_in_unit_disk RAND_MAX rounds s with
    | inl e => e = rounds_exhausted
    | inr (q, s') =>
        vec3_z q = 0 /\
        vec3_x q * vec3_x q + vec3_y q * vec3_y q < 1 /\
        exists j, (1 <= j <= rounds)%nat /\ after_draws (2 * j) s s'
    end.
Proof.
  induction rounds as [| rounds IH]; intros s; [reflexivity |].
  cbn [random_in_unit_disk]. unfold bind.
  rewrite !random_double_range_eq.
  set (a := -1 + (1 - -1) * (IZR (s O) / (IZR RAND_MAX + 1))).
  set (s1 := snd (rand s)).
  set (b := -1 + (1 - -1) * (IZR (s1 O) / (IZR RAND_MAX + 1))).
  set (s2 := snd (rand s1)).
  assert (A : after_draws 2 s s2).
  { intros n. unfold s2, s1. simpl. f_equal. lia. }
  destruct (ltb (length_squared (Vec3 a b 0)) 1) eqn:L; simpl.
  - unfold ret. apply ltb_true in L. unfold length_squared in L; simpl in L.
    unfold vec3_x, vec3_y, vec3_z; simpl.
    split; [reflexivity |]. split; [lra |].
    exists 1%nat. split; [lia | exact A].
  - specialize (IH s2).
    destruct (random_in_unit_disk RAND_MAX rounds s2) as [e | [q s']];
      [exact IH |].
    destruct IH as [Hz [Hl [j [Hj Ha]]]].
    split; [exact Hz |]. split; [exact Hl |].
    exists (S j). split; [lia |].
    intros n. rewrite Ha, A. f_equal. lia.
Qed.

(** X14.  Whatever [random_in_unit_disk] returns has [z = 0] and lies
    strictly inside the unit disk, after two values of [rand()] per
    round. *)
Theorem random_in_unit_disk_contract (RAND_MAX : Z) (rounds : nat) :
  forall s,
    match random_in_unit_disk RAND_MAX rounds s with
    | inl e => e = rounds_exhausted
    | inr (q, s') =>
        vec3_z q = 0 /\
        vec3_x q * vec3_x q + vec3_y q * vec3_y q < 1 /\
        exists j, (1 <= j <= rounds)%nat /\ after_draws (2 * j) s s'
    end.
Proof.
  intros s. pose proof (random_in_unit_disk_inside RAND_MAX rounds s) as H.
  destruct (random_in_unit_disk RAND_MAX rounds s) as [e | [q s']]; exact H.
Qed.

(** ** material.hpp: the three [scatter] functions *)

(** X15.  [lambertian::scatter] stops without a result only when the
    rejection loop runs out of rounds.  Otherwise it returns true, the
    attenuation is the albedo, the scattered ray starts at [rec.p], and its
    direction is [rec.normal] plus the random unit vector, or [rec.normal]
    itself when that sum is near zero: unless the normal itself is near
    zero, the direction handed on is not. *)
Theorem lambertian_scatter_contract (RAND_MAX : Z) (rounds : nat)
    (m : lambertian) (r_in : ray) (rec : hit_record) (attenuation : color)
    (scattered : ray) (s : rand_state) :
  match lambertian_scatter RAND_MAX rounds m r_in rec attenuation scattered s
  with
  | inl e => e = rounds_exhausted
  | inr (b, attenuation', scattered', s') =>
      b = true /\
      attenuation' = lambertian_albedo m /\
      orig scattered' = p rec /\
      (exists u, random_unit_vector RAND_MAX rounds s = inr (u, s') /\
                 (dir scattered' = normal rec +^ u \/
                  dir scattered' = normal rec /\
                  near_zero (normal rec +^ u) = true)) /\
      (near_zero (normal rec) = false -> near_zero (dir scattered') = false)
  end.
Proof.
  unfold lambertian_scatter, bind.
  destruct (random_unit_vector RAND_MAX rounds s) as [e | [u s']] eqn:E.
  - unfold random_unit_vector, bind in E.
    destruct (random_in_unit_sphere RAND_MAX rounds s) as [e0 | [q s0]] eqn:E0;
      [| discriminate].
    injection E as <-. now apply random_in_unit_sphere_failure in E0.
  - unfold ret. simpl.
    destruct (near_zero (normal rec +^ u)) eqn:N.
    + repeat split; auto. exists u. split; [reflexivity |]. right. auto.
    + repeat split; auto. exists u. split; [reflexivity |]. now left.
Qed.

Lemma pow5_unit (y : R) : 0 <= y <= 1 -> 0 <= y ^ 5 <= 1.
Proof.
  intros [H0 H1]. split.
  - now apply pow_le.
  - rewrite <- (pow1 5). apply pow_incr. lra.
Qed.

(** X16.  For an index that is not negative and a cosine in [[0, 1]],
    [reflectance] is a probability: it lies between Schlick's [r0] and 1,
    so in [[0, 1]]; it is 1 at grazing incidence (cosine 0) and [r0] at
    normal incidence (cosine 1). *)
Theorem reflectance_probability (cosine ref_idx : R) :
  0 <= ref_idx -> 0 <= cosine <= 1 ->
  let r0 := ((1 - ref_idx) / (1 + ref_idx)) * ((1 - ref_idx) / (1 + ref_idx)) in
  0 <= r0 <= 1 /\
  r0 <= reflectance cosine ref_idx <= 1 /\
  reflectance 0 ref_idx = 1 /\
  reflectance 1 ref_idx = r0.
Proof.
  intros Hn Hc. cbv zeta. unfold reflectance.
  set (q := (1 - ref_idx) / (1 + ref_idx)).
  assert (Hq : -1 <= q <= 1).
  { unfold q. split.
    - apply Rmult_le_reg_r with (r := 1 + ref_idx); [lra |].
      unfold Rdiv. rewrite Rmult_assoc, Rinv_l by lra. lra.
    - apply Rmult_le_reg_r with (r := 1 + ref_idx); [lra |].
      unfold Rdiv. rewrite Rmult_assoc, Rinv_l by lra. lra. }
  assert (Hr : 0 <= q * q <= 1) by nra.
  assert (Hy : 0 <= (1 - cosine) ^ 5 <= 1) by (apply pow5_unit; lra).
  split; [exact Hr |]. split; [nra |]. split.
  - replace (1 - 0) with 1 by ring. rewrite pow1. ring.
  - replace (1 - 1) with 0 by ring. rewrite pow_i by lia. ring.
Qed.

Lemma reflectance_probability_witness :
  let r0 := ((1 - 3 / 2) / (1 + 3 / 2)) * ((1 - 3 / 2) / (1 + 3 / 2)) in
  0 <= r0 <= 1 /\
  r0 <= reflectance (1 / 2) (3 / 2) <= 1 /\
  reflectance 0 (3 / 2) = 1 /\
  reflectance 1 (3 / 2) = r0.
Proof.
  apply (reflectance_probability (1 / 2) (3 / 2)); lra.
Defined.

(** X17.  [dielectric::scatter] always returns true, with attenuation
    (1,1,1) and a ray from [rec.p] whose direction is the reflection or
    the refraction of the unit direction.  When
    [refraction_ratio * sin_theta > 1] it reflects and calls [rand()] not
    at all; otherwise it calls it once and reflects exactly when the
    reflectance exceeds the value drawn. *)
Theorem dielectric_scatter_contract (RAND_MAX : Z) (m : dielectric)
    (r_in : ray) (rec : hit_record) (attenuation : color) (scattered : ray)
    (s : rand_state) :
  let refraction_ratio := if front_face rec then 1 / ir m else ir m in
  let unit_direction := unit_vector (direction r_in) in
  let cos_theta := Rmin (dot (vec3_neg unit_direction) (normal rec)) 1 in
  let sin_theta := sqrt (1 - cos_theta * cos_theta) in
  let reflected := reflect unit_direction (normal rec) in
  let refracted := refract unit_direction (normal rec) refraction_ratio in
  exists d s',
    dielectric_scatter RAND_MAX m r_in rec attenuation scattered s
    = inr (true, Vec3 1 1 1, Ray (p rec) d, s') /\
    (refraction_ratio * sin_theta > 1 -> d = reflected /\ s' = s) /\
    (refraction_ratio * sin_theta <= 1 ->
     s' = snd (rand s) /\
     exists u, random_double RAND_MAX s = inr (u, s') /\
               (reflectance cos_theta refraction_ratio > u -> d = reflected) /\
               (reflectance cos_theta refraction_ratio <= u -> d = refracted)).
Proof.
  cbv zeta. unfold dielectric_scatter, bind.
  set (ratio := if front_face rec then 1 / ir m else ir m).
  set (ud := unit_vector (direction r_in)).
  set (c := Rmin (dot (vec3_neg ud) (normal rec)) 1).
  set (sn := sqrt (1 - c * c)).
  destruct (gtb (ratio * sn) 1) eqn:G.
  - apply gtb_true in G. unfold ret. do 2 eexists.
    split; [reflexivity |]. split; [auto | intros; lra].
  - apply gtb_false in G. rewrite random_double_eq. unfold ret.
    set (u := IZR (s O) / (IZR RAND_MAX + 1)).
    destruct (gtb (reflectance c ratio) u) eqn:F.
    + apply gtb_true in F. do 2 eexists. split; [reflexivity |].
      split; [intros; lra |]. intros _. split; [reflexivity |].
      exists u. split; [reflexivity |]. split; [auto | intros; lra].
    + apply gtb_false in F. do 2 eexists. split; [reflexivity |].
      split; [intros; lra |]. intros _. split; [reflexivity |].
      exists u. split; [reflexivity |]. split; [intros; lra | auto].
Qed.





(** ** camera.hpp *)

(** X19.  The ray [get_ray(s, t)] returns starts on the lens: at the
    camera origin moved by [lens_radius (x u + y v)] for a point [(x, y)]
    strictly inside the unit disk.  With a lens radius of 0 it is the
    pinhole ray, from the origin itself towards
    [lower_left_corner + s horizontal + t vertical], whatever is drawn.
    The call stops without a ray only when the rejection loop runs out of
    rounds. *)
Theorem get_ray_lens (RAND_MAX : Z) (rounds : nat) (c : camera)
    (sx ty : R) (s : rand_state) :
  match get_ray RAND_MAX rounds c sx ty s with
  | inl e => e = rounds_exhausted
  | inr (r, s') =>
      (exists x y,
          x * x + y * y < 1 /\
          origin r
          = camera_origin c
            +^ ((lens_radius c * x) *^ camera_u c
                +^ (lens_radius c * y) *^ camera_v c)) /\
      (lens_radius c = 0 ->
       r = Ray (camera_origin c)
               (lower_left_corner c +^ sx *^ horizontal c +^ ty *^ vertical c
                -^ camera_origin c))
  end.
Proof.
  unfold get_ray, bind.
  pose proof (random_in_unit_disk_inside RAND_MAX rounds s) as D.
  destruct (random_in_unit_disk RAND_MAX rounds s) as [e | [q s']];
    [exact D |].
  destruct D as [_ [Hin _]]. unfold ret.
  split.
  - exists (vec3_x q), (vec3_y q). split; [exact Hin | reflexivity].
  - intros H0. rewrite H0.
    unfold vec3_add, vec3_sub, vec3_scale, vec3_x, vec3_y; simpl.
    destruct (camera_origin c) as [o0 o1 o2]; simpl.
    f_equal; f_equal; ring.
Qed.

(** ** main.cpp: [ray_color] *)

Lemma unit_vector_component (d : vec3) : -1 <= vec3_y (unit_vector d) <= 1.
Proof.
  assert (H : vec3_y (unit_vector d) * vec3_y (unit_vector d) <= 1).
  { destruct (Req_dec (length_squared d) 0) as [Z | NZ].
    - assert (e1 d = 0) by (unfold length_squared in Z; nra).
      unfold unit_vector, vec3_div, vec3_scale, vec3_y; simpl. nra.
    - pose proof (unit_vector_length_squared d NZ) as E.
      unfold length_squared in E. unfold vec3_y. nra. }
  nra.
Qed.

Lemma sky_color_unit (d : vec3) :
  let k := (1 / 2) * (vec3_y (unit_vector d) + 1) in
  let c := (1 - k) *^ Vec3 1 1 1 +^ k *^ Vec3 (1 / 2) (7 / 10) 1 in
  1 / 2 <= e0 c <= 1 /\ 7 / 10 <= e1 c <= 1 /\ e2 c = 1.
Proof.
  cbv zeta. pose proof (unit_vector_component d) as H.
  revert H. generalize (vec3_y (unit_vector d)). intros y H.
  unfold vec3_add, vec3_scale; simpl. repeat split; lra.
Qed.

(** X21.  With bounces left ([depth > 0]), a ray that hits nothing from
    0.001 on gets the sky colour: the blend
    [(1 - k) (1,1,1) + k (0.5, 0.7, 1)] with
    [k = 0.5 (unit_direction.y + 1)].  No value of [rand()] is used, the
    red channel lies in [[0.5, 1]], the green one in [[0.7, 1]] and the
    blue one is 1. *)
Theorem ray_color_sky_gradient (RAND_MAX : Z) (rounds : nat) (r : ray)
    (world : hittable) (depth : Z) (s : rand_state) :
  (0 < depth)%Z ->
  length_squared (direction r) <> 0 ->
  fst (hit world r (1 / 1000) infinity hit_record_default) = false ->
  let k := (1 / 2) * (vec3_y (unit_vector (direction r)) + 1) in
  let c := (1 - k) *^ Vec3 1 1 1 +^ k *^ Vec3 (1 / 2) (7 / 10) 1 in
  ray_color RAND_MAX rounds r world depth s = inr (c, s) /\
  0 <= k <= 1 /\
  1 / 2 <= e0 c <= 1 /\ 7 / 10 <= e1 c <= 1 /\ e2 c = 1.
Proof.
  intros Hd _ Hmiss. cbv zeta. split.
  - unfold ray_color.
    assert (E : (depth <=? 0)%Z = false) by (apply Z.leb_gt; lia).
    destruct (Z.to_nat depth); cbn [ray_color_rec]; rewrite E;
      destruct (hit world r (1 / 1000) infinity hit_record_default)
        as [b rec]; simpl in Hmiss; subst b; reflexivity.
  - pose proof (unit_vector_component (direction r)) as H.
    split; [lra |]. apply sky_color_unit.
Qed.

Lemma ray_color_sky_gradient_witness :
  let k := (1 / 2) * (vec3_y (unit_vector (direction ray_away)) + 1) in
  let c := (1 - k) *^ Vec3 1 1 1 +^ k *^ Vec3 (1 / 2) (7 / 10) 1 in
  ray_color rand_max_3 0 ray_away (HSphere ball_red) 1 always_one
  = inr (c, always_one) /\
  0 <= k <= 1 /\
  1 / 2 <= e0 c <= 1 /\ 7 / 10 <= e1 c <= 1 /\ e2 c = 1.
Proof.
  apply (ray_color_sky_gradient rand_max_3 0 ray_away (HSphere ball_red) 1
           always_one).
  - lia.
  - unfold length_squared; simpl. lra.
  - cbn [hit]. now rewrite ray_away_misses.
Defined.

(** The material of a reported hit is the one of a sphere of the world. *)
Lemma hit_material (h : hittable) :
  forall r t_min c rec rc,
    hit h r t_min c rec = (true, rc) ->
    exists s, In s (spheres h) /\ mat_ptr rc = sphere_mat_ptr s.
Proof.
  induction h as [s | objects IH] using hittable_induction;
    intros r t_min c rec rc H.
  - simpl in H. apply sphere_hit_true_inv in H. destruct H as [root [-> _]].
    exists s. split; [now left | reflexivity].
  - rewrite Forall_forall in IH. rewrite hit_list_best in H.
    destruct (best_below (fun o => nearest_from o r t_min) objects c)
      as [rb |] eqn:B; [| discriminate].
    injection H as <-.
    destruct (best_below_in _ _ _ _ B) as [o [Ho Hn]].
    assert (Hh : hit o r t_min infinity hit_record_default = (true, rb)).
    { apply hit_true_iff. split; [exact Hn | exact I]. }
    destruct (IH o Ho _ _ _ _ _ Hh) as [s [Hs Hm]].
    exists s. split; [| exact Hm].
    cbn [spheres]. apply in_flat_map. exists o. auto.
Qed.

Lemma color_unit_mul (a b : color) :
  color_unit a -> color_unit b -> color_unit (a ** b).
Proof.
  unfold color_unit, vec3_mul; simpl. intros [A0 [A1 A2]] [B0 [B1 B2]].
  repeat split; nra.
Qed.

Lemma color_unit_black : color_unit (Vec3 0 0 0).
Proof. unfold color_unit; simpl. lra. Qed.

Lemma metal_scatter_writes_first_aux (RAND_MAX : Z) (rounds : nat) (m : metal)
    r_in rec attenuation scattered s b attenuation' scattered' s' :
  metal_scatter RAND_MAX rounds m r_in rec attenuation scattered s
  = inr (b, attenuation', scattered', s') ->
  attenuation' = albedo m.
Proof.
  unfold metal_scatter. intros H.
  apply bind_inr in H. destruct H as [q [s0 [_ H]]].
  unfold ret in H. now injection H as _ <- _ _.
Qed.

Lemma scatter_attenuation (RAND_MAX : Z) (rounds : nat) (m : material)
    r_in rec attenuation scattered s b attenuation' scattered' s' :
  material_albedo_unit m ->
  scatter RAND_MAX rounds m r_in rec attenuation scattered s
  = inr (b, attenuation', scattered', s') ->
  color_unit attenuation'.
Proof.
  intros Hm H. destruct m as [l | l | l]; simpl in *.
  - unfold lambertian_scatter in H. apply bind_inr in H.
    destruct H as [u [s0 [_ H]]]. unfold ret in H.
    injection H as _ <- _ _. exact Hm.
  - apply metal_scatter_writes_first_aux in H. now subst.
  - unfold dielectric_scatter in H. apply bind_inr in H.
    destruct H as [b0 [s0 [_ H]]]. unfold ret in H.
    injection H as _ <- _ _. unfold color_unit; simpl. lra.
Qed.

Lemma ray_color_rec_unit (RAND_MAX : Z) (rounds : nat) (world : hittable) :
  world_ok world ->
  forall n r depth s,
    match ray_color_rec RAND_MAX n rounds r world depth s with
    | inl e => e = rounds_exhausted \/ e = depth_exhausted
    | inr (c, _) => color_unit c
    end.
Proof.
  intros Hw. unfold world_ok in Hw. rewrite Forall_forall in Hw.
  induction n as [| n IH]; intros r depth s.
  - cbn [ray_color_rec].
    destruct (depth <=? 0)%Z; [apply color_unit_black |].
    destruct (hit world r (1 / 1000) infinity hit_record_default)
      as [[|] rec] eqn:Hh.
    + destruct (hit_material _ _ _ _ _ _ Hh) as [sp [Hin Hm]].
      destruct (Hw sp Hin) as [m [Hsome Hok]].
      rewrite Hm, Hsome. unfold bind.
      destruct (scatter RAND_MAX rounds m r rec (Vec3 0 0 0)
                  (Ray (Vec3 0 0 0) (Vec3 0 0 0)) s)
        as [e | [[[b att] sc] s0]] eqn:Hs.
      * left. now apply scatter_failure in Hs.
      * destruct b; [now right | apply color_unit_black].
    + unfold ret. pose proof (sky_color_unit (direction r)) as K.
      cbv zeta in K. unfold color_unit. intuition lra.
  - cbn [ray_color_rec].
    destruct (depth <=? 0)%Z; [apply color_unit_black |].
    destruct (hit world r (1 / 1000) infinity hit_record_default)
      as [[|] rec] eqn:Hh.
    + destruct (hit_material _ _ _ _ _ _ Hh) as [sp [Hin Hm]].
      destruct (Hw sp Hin) as [m [Hsome Hok]].
      rewrite Hm, Hsome. unfold bind at 1.
      destruct (scatter RAND_MAX rounds m r rec (Vec3 0 0 0)
                  (Ray (Vec3 0 0 0) (Vec3 0 0 0)) s)
        as [e | [[[b att] sc] s0]] eqn:Hs.
      * left. now apply scatter_failure in Hs.
      * destruct b; [| apply color_unit_black].
        unfold bind. specialize (IH sc (depth - 1)%Z s0).
        destruct (ray_color_rec RAND_MAX n rounds sc world (depth - 1) s0)
          as [e | [c s1]]; [exact IH |].
        unfold ret. apply color_unit_mul; [| exact IH].
        now apply scatter_attenuation in Hs.
    + unfold ret. pose proof (sky_color_unit (direction r)) as K.
      cbv zeta in K. unfold color_unit. intuition lra.
Qed.

Lemma ray_color_channels (RAND_MAX : Z) (rounds : nat) (r : ray)
    (world : hittable) (depth : Z) (s : rand_state) :
  world_ok world ->
  match ray_color RAND_MAX rounds r world depth s with
  | inl e => e = rounds_exhausted
  | inr (c, _) => color_unit c
  end.
Proof.
  intros Hw.
  pose proof (ray_color_rec_unit RAND_MAX rounds world Hw (Z.to_nat depth)
                r depth s) as H.
  pose proof (ray_color_counter RAND_MAX rounds r world depth s) as Hc.
  unfold ray_color in *.
  destruct (ray_color_rec RAND_MAX (Z.to_nat depth) rounds r world depth s)
    as [e | [c s']]; [| exact H].
  destruct H as [H | H]; [exact H |]. subst e. now contradiction Hc.
Qed.

(** X22.  In a world where every sphere points to a material and every
    albedo has its channels in [[0, 1]], [ray_color] never dereferences a
    null material, stops without a colour only when a rejection loop runs
    out of rounds, and returns a colour with every channel in [[0, 1]],
    for every ray and every depth. *)
Theorem ray_color_unit (RAND_MAX : Z) (rounds : nat) (r : ray)
    (world : hittable) (depth : Z) (s : rand_state) :
  world_ok world ->
  match ray_color RAND_MAX rounds r world depth s with
  | inl e => e = rounds_exhausted
  | inr (c, _) => color_unit c
  end.
Proof.
  intros Hw.
  pose proof (ray_color_rec_unit RAND_MAX rounds world Hw (Z.to_nat depth)
                r depth s) as H.
  pose proof (ray_color_counter RAND_MAX rounds r world depth s) as Hc.
  unfold ray_color in *.
  destruct (ray_color_rec RAND_MAX (Z.to_nat depth) rounds r world depth s)
    as [e | [c s']]; [| exact H].
  destruct H as [H | H]; [exact H |]. subst e. now contradiction Hc.
Qed.

Lemma twins_world_ok : world_ok twins.
Proof.
  unfold world_ok. simpl. repeat constructor.
  - exists red. split; [reflexivity |]. simpl. unfold color_unit; simpl. lra.
  - exists mirror. split; [reflexivity |]. simpl. unfold color_unit; simpl. lra.
Qed.

Lemma ray_color_unit_witness :
  match ray_color rand_max_3 1 ray_in twins 1 always_one with
  | inl e => e = rounds_exhausted
  | inr (c, _) => color_unit c
  end.
Proof.
  apply (ray_color_unit rand_max_3 1 ray_in twins 1 always_one).
  exact twins_world_ok.
Defined.

(** ** rtweekend.hpp: [clamp], and the pixel written by [main] *)

Lemma clamp_monotone (x y lo hi : R) :
  lo <= hi -> x <= y -> clamp x lo hi <= clamp y lo hi.
Proof.
  intros H Hxy. unfold clamp.
  destruct (ltb x lo) eqn:X1; destruct (ltb y lo) eqn:Y1;
    destruct (gtb x hi) eqn:X2; destruct (gtb y hi) eqn:Y2;
    rewrite ?ltb_true, ?ltb_false, ?gtb_true, ?gtb_false in *; lra.
Qed.

(** X23.  For [min <= max], [clamp] returns a value of [[min, max]],
    returns its argument when that already lies in the interval, is
    idempotent and is monotone. *)
Theorem clamp_contract (x y lo hi : R) :
  lo <= hi ->
  lo <= clamp x lo hi <= hi /\
  (lo <= x <= hi -> clamp x lo hi = x) /\
  clamp (clamp x lo hi) lo hi = clamp x lo hi /\
  (x <= y -> clamp x lo hi <= clamp y lo hi).
Proof.
  intros H.
  assert (Hid : forall z, lo <= z <= hi -> clamp z lo hi = z).
  { intros z Hz. unfold clamp.
    assert (E1 : ltb z lo = false) by (apply ltb_false; lra).
    assert (E2 : gtb z hi = false) by (apply gtb_false; lra).
    now rewrite E1, E2. }
  split; [now apply clamp_bounds |]. split; [apply Hid |]. split.
  - apply Hid. now apply clamp_bounds.
  - now apply clamp_monotone.
Qed.

Lemma clamp_contract_witness :
  0 <= clamp 2 0 (999 / 1000) <= 999 / 1000 /\
  (0 <= 2 <= 999 / 1000 -> clamp 2 0 (999 / 1000) = 2) /\
  clamp (clamp 2 0 (999 / 1000)) 0 (999 / 1000) = clamp 2 0 (999 / 1000) /\
  (2 <= 3 -> clamp 2 0 (999 / 1000) <= clamp 3 0 (999 / 1000)).
Proof.
  apply (clamp_contract 2 3 0 (999 / 1000)). lra.
Defined.

Lemma Int_part_monotone (x y : R) : x <= y -> (Int_part x <= Int_part y)%Z.
Proof.
  intros H. unfold Int_part.
  destruct (archimed x) as [_ Hx]. destruct (archimed y) as [Hy _].
  assert (A : (up x - 1 < up y)%Z).
  { apply lt_IZR. rewrite minus_IZR. simpl. lra. }
  lia.
Qed.

Lemma static_cast_int_nonneg (x : R) :
  0 <= x -> static_cast_int x = Int_part x.
Proof.
  intros H. unfold static_cast_int.
  assert (E : ltb x 0 = false) by (apply ltb_false; lra).
  now rewrite E.
Qed.

(** X24.  For at least one sample per pixel, each integer [main] writes
    is monotone in the channel sum it comes from: 0 for a sum of 0, 255
    as soon as the sum reaches the number of samples, and never smaller
    for a larger sum. *)
Theorem write_pixel_monotone (c1 c2 : color) (samples_per_pixel : Z) :
  (1 <= samples_per_pixel)%Z ->
  let byte_of (channel : R) :=
    static_cast_int
      (256 * clamp (sqrt (1 / IZR samples_per_pixel * channel)) 0 (999 / 1000))
  in
  write_pixel c1 samples_per_pixel
  = (byte_of (vec3_x c1), byte_of (vec3_y c1), byte_of (vec3_z c1)) /\
  byte_of 0 = 0%Z /\
  (forall channel, IZR samples_per_pixel <= channel -> byte_of channel = 255%Z) /\
  (forall a b, 0 <= a <= b -> (byte_of a <= byte_of b)%Z).
Proof.
  intros Hs. cbv zeta.
  assert (Hn : 1 <= IZR samples_per_pixel) by (now apply IZR_le in Hs).
  assert (Hscale : 0 < 1 / IZR samples_per_pixel)
    by (apply Rdiv_lt_0_compat; lra).
  split; [reflexivity |]. split; [| split].
  - rewrite Rmult_0_r, sqrt_0.
    assert (E : clamp 0 0 (999 / 1000) = 0).
    { unfold clamp.
      assert (E1 : ltb 0 0 = false) by (apply ltb_false; lra).
      assert (E2 : gtb 0 (999 / 1000) = false) by (apply gtb_false; lra).
      now rewrite E1, E2. }
    rewrite E, Rmult_0_r, static_cast_int_nonneg by lra.
    pose proof (Int_part_bounds 0 0 0) as B. simpl in B.
    assert (0 <= Int_part 0 <= 0)%Z by (apply B; lra). lia.
  - intros channel Hc.
    assert (Hone : 1 <= 1 / IZR samples_per_pixel * channel).
    { apply Rmult_le_reg_l with (r := IZR samples_per_pixel); [lra |].
      rewrite <- Rmult_assoc.
      replace (IZR samples_per_pixel * (1 / IZR samples_per_pixel)) with 1
        by (field; lra).
      lra. }
    assert (Hsq : 1 <= sqrt (1 / IZR samples_per_pixel * channel)).
    { pose proof (sqrt_le_1_alt 1 _ Hone) as X. now rewrite sqrt_1 in X. }
    assert (E : clamp (sqrt (1 / IZR samples_per_pixel * channel)) 0
                      (999 / 1000) = 999 / 1000).
    { unfold clamp.
      assert (E1 : ltb (sqrt (1 / IZR samples_per_pixel * channel)) 0 = false)
        by (apply ltb_false; lra).
      assert (E2 : gtb (sqrt (1 / IZR samples_per_pixel * channel))
                       (999 / 1000) = true)
        by (apply gtb_true; lra).
      now rewrite E1, E2. }
    rewrite E, static_cast_int_nonneg by lra.
    pose proof (Int_part_bounds (256 * (999 / 1000)) 255 255) as B.
    simpl in B.
    assert (255 <= Int_part (256 * (999 / 1000)) <= 255)%Z by (apply B; lra).
    lia.
  - intros a b [Ha Hab].
    assert (C : forall x, 0 <= 256 * clamp x 0 (999 / 1000)).
    { intros x. pose proof (clamp_bounds x 0 (999 / 1000)). lra. }
    rewrite !static_cast_int_nonneg by apply C.
    apply Int_part_monotone.
    apply Rmult_le_compat_l; [lra |].
    apply clamp_monotone; [lra |].
    apply sqrt_le_1_alt. nra.
Qed.

Lemma write_pixel_monotone_witness :
  let byte_of (channel : R) :=
    static_cast_int (256 * clamp (sqrt (1 / IZR 10 * channel)) 0 (999 / 1000))
  in
  write_pixel (Vec3 10 5 0) 10
  = (byte_of (vec3_x (Vec3 10 5 0)), byte_of (vec3_y (Vec3 10 5 0)),
     byte_of (vec3_z (Vec3 10 5 0))) /\
  byte_of 0 = 0%Z /\
  (forall channel, IZR 10 <= channel -> byte_of channel = 255%Z) /\
  (forall a b, 0 <= a <= b -> (byte_of a <= byte_of b)%Z).
Proof.
  apply (write_pixel_monotone (Vec3 10 5 0) (Vec3 10 5 0) 10). lia.
Defined.

(** ** main.cpp: [random_scene] *)

Lemma for_each_invariant {A : Type} (F : failure -> Prop)
    (Q : nat -> A -> rand_state -> Prop) (body : A -> Z -> M A)
    (indices : list Z) :
  (forall k acc i s, In i indices -> Q k acc s ->
     match body acc i s with
     | inl e => F e
     | inr (acc', s') => Q (S k) acc' s'
     end) ->
  forall k acc s, Q k acc s ->
     match for_each indices body acc s with
     | inl e => F e
     | inr (acc', s') => Q (k + List.length indices)%nat acc' s'
     end.
Proof.
  induction indices as [| i rest IH]; intros Hb k acc s HQ; simpl.
  - unfold ret. now rewrite Nat.add_0_r.
  - unfold bind. pose proof (Hb k acc i s (or_introl eq_refl) HQ) as H.
    destruct (body acc i s) as [e | [acc' s']]; [exact H |].
    replace (k + S (List.length rest))%nat
      with (S k + List.length rest)%nat by lia.
    apply IH; [| exact H]. intros. apply Hb; auto. now right.
Qed.

Lemma int_range_length (lo : Z) (count : nat) :
  List.length (int_range lo count) = count.
Proof. unfold int_range. now rewrite length_map, length_seq. Qed.

Lemma rand_in_range_next (RAND_MAX : Z) (s : rand_state) :
  rand_in_range RAND_MAX s -> rand_in_range RAND_MAX (snd (rand s)).
Proof. intros H n. apply H. Qed.

Lemma random_double_spec (RAND_MAX : Z) (s : rand_state) :
  rand_in_range RAND_MAX s ->
  exists u s', random_double RAND_MAX s = inr (u, s') /\ 0 <= u < 1 /\
               rand_in_range RAND_MAX s'.
Proof.
  intros H. rewrite random_double_eq. do 2 eexists.
  split; [reflexivity |]. split.
  - apply unit_fraction. apply H.
  - now apply rand_in_range_next.
Qed.

Lemma random_double_range_spec (RAND_MAX : Z) (lo hi : R) (s : rand_state) :
  lo < hi -> rand_in_range RAND_MAX s ->
  exists x s', random_double_range RAND_MAX lo hi s = inr (x, s') /\
               lo <= x < hi /\ rand_in_range RAND_MAX s'.
Proof.
  intros Hlt H. rewrite random_double_range_eq. do 2 eexists.
  split; [reflexivity |]. split.
  - pose proof (unit_fraction RAND_MAX (s O) (H O)). nra.
  - now apply rand_in_range_next.
Qed.

Lemma vec3_random_spec (RAND_MAX : Z) (s : rand_state) :
  rand_in_range RAND_MAX s ->
  exists c s', vec3_random RAND_MAX s = inr (c, s') /\
               (0 <= e0 c < 1 /\ 0 <= e1 c < 1 /\ 0 <= e2 c < 1) /\
               rand_in_range RAND_MAX s'.
Proof.
  intros H. unfold vec3_random, bind.
  destruct (random_double_spec RAND_MAX s H) as (a & s1 & -> & Ha & H1).
  destruct (random_double_spec RAND_MAX s1 H1) as (b & s2 & -> & Hb & H2).
  destruct (random_double_spec RAND_MAX s2 H2) as (c & s3 & -> & Hc & H3).
  unfold ret. do 2 eexists. split; [reflexivity |]. simpl. auto.
Qed.

Lemma vec3_random_range_spec (RAND_MAX : Z) (lo hi : R) (s : rand_state) :
  lo < hi -> rand_in_range RAND_MAX s ->
  exists c s', vec3_random_range RAND_MAX lo hi s = inr (c, s') /\
               (lo <= e0 c < hi /\ lo <= e1 c < hi /\ lo <= e2 c < hi) /\
               rand_in_range RAND_MAX s'.
Proof.
  intros Hlt H. unfold vec3_random_range, bind.
  destruct (random_double_range_spec RAND_MAX lo hi s Hlt H)
    as (a & s1 & -> & Ha & H1).
  destruct (random_double_range_spec RAND_MAX lo hi s1 Hlt H1)
    as (b & s2 & -> & Hb & H2).
  destruct (random_double_range_spec RAND_MAX lo hi s2 Hlt H2)
    as (c & s3 & -> & Hc & H3).
  unfold ret. do 2 eexists. split; [reflexivity |]. simpl. auto.
Qed.

(** One cell of the grid adds at most one sphere, a small one. *)
Lemma random_scene_cell_spec (RAND_MAX : Z) (world : list hittable)
    (a b : Z) (s : rand_state) :
  rand_in_range RAND_MAX s ->
  exists world' s',
    random_scene_cell RAND_MAX world a b s = inr (world', s') /\
    rand_in_range RAND_MAX s' /\
    (world' = world \/ exists o, world' = world ++ [o] /\ small_sphere o).
Proof.
  intros H. unfold random_scene_cell.
  unfold bind at 1.
  destruct (random_double_spec RAND_MAX s H) as (cm & s1 & -> & Hcm & H1).
  unfold bind at 1.
  destruct (random_double_spec RAND_MAX s1 H1) as (cx & s2 & -> & Hcx & H2).
  unfold bind at 1.
  destruct (random_double_spec RAND_MAX s2 H2) as (cz & s3 & -> & Hcz & H3).
  set (center := Vec3 (IZR a + 9 / 10 * cx) (1 / 5) (IZR b + 9 / 10 * cz)).
  destruct (gtb (length (center -^ Vec3 4 (1 / 5) 0)) (9 / 10)) eqn:G.
  - apply gtb_true in G.
    assert (Small : forall m, material_albedo_unit m ->
              small_sphere (HSphere (Sphere center (1 / 5) (Some m)))).
    { intros m Hm. eexists. split; [reflexivity |].
      split; [exists m; auto |]. simpl. auto. }
    destruct (ltb cm (4 / 5)).
    + unfold bind at 1.
      destruct (vec3_random_spec RAND_MAX s3 H3) as (c1 & s4 & -> & Hc1 & H4).
      unfold bind at 1.
      destruct (vec3_random_spec RAND_MAX s4 H4) as (c2 & s5 & -> & Hc2 & H5).
      unfold ret, hittable_list_add. do 2 eexists.
      split; [reflexivity |]. split; [exact H5 |]. right.
      eexists. split; [reflexivity |]. apply Small. simpl.
      unfold color_unit, vec3_mul; simpl. repeat split; nra.
    + destruct (ltb cm (19 / 20)).
      * unfold bind at 1.
        destruct (vec3_random_range_spec RAND_MAX (1 / 2) 1 s3 ltac:(lra) H3)
          as (al & s4 & -> & Hal & H4).
        unfold bind at 1.
        destruct (random_double_range_spec RAND_MAX 0 (1 / 2) s4 ltac:(lra) H4)
          as (fz & s5 & -> & Hfz & H5).
        unfold ret, hittable_list_add. do 2 eexists.
        split; [reflexivity |]. split; [exact H5 |]. right.
        eexists. split; [reflexivity |]. apply Small. simpl.
        unfold color_unit. repeat split; lra.
      * unfold ret, hittable_list_add. do 2 eexists.
        split; [reflexivity |]. split; [exact H3 |]. right.
        eexists. split; [reflexivity |]. apply Small. exact I.
  - unfold ret. do 2 eexists. split; [reflexivity |]. split; [exact H3 |].
    now left.
Qed.

Lemma world_ok_objects (world : list hittable) :
  Forall object_ok world -> world_ok (HList world).
Proof.
  intros H. unfold world_ok. cbn [spheres]. apply Forall_forall.
  intros sp Hin. apply in_flat_map in Hin. destruct Hin as [o [Ho Hsp]].
  rewrite Forall_forall in H. destruct (H o Ho) as [sp' [-> Hok]].
  simpl in Hsp. destruct Hsp as [<- | []]. exact Hok.
Qed.

Lemma small_sphere_ok (o : hittable) : small_sphere o -> object_ok o.
Proof. intros [sp [E [Hok _]]]. exists sp. auto. Qed.

Lemma random_scene_objects (RAND_MAX : Z) (s : rand_state) :
  rand_in_range RAND_MAX s ->
  exists small s',
    random_scene RAND_MAX s
    = inr (scene_ground :: small ++ [scene_glass; scene_matte; scene_metal],
           s') /\
    (List.length small <= 484)%nat /\
    Forall small_sphere small /\
    world_ok (HList (scene_ground :: small
                     ++ [scene_glass; scene_matte; scene_metal])) /\
    rand_in_range RAND_MAX s'.
Proof.
  intros H. unfold random_scene. cbv zeta.
  unfold hittable_list_add. cbn [app]. fold scene_ground.
  set (Q := fun (n : nat) (w : list hittable) (st : rand_state) =>
              rand_in_range RAND_MAX st /\
              exists small, w = scene_ground :: small /\
                            (List.length small <= n)%nat /\
                            Forall small_sphere small).
  assert (Cell : forall a n w b st, Q n w st ->
            match random_scene_cell RAND_MAX w a b st with
            | inl e => False
            | inr (w', st') => Q (S n) w' st'
            end).
  { intros a n w b st [Hst [small [-> [Hlen Hall]]]].
    destruct (random_scene_cell_spec RAND_MAX (scene_ground :: small) a b st Hst)
      as (w' & st' & -> & Hst' & [-> | [o [-> Ho]]]).
    - split; [exact Hst' |]. exists small. repeat split; auto.
    - split; [exact Hst' |]. exists (small ++ [o]). repeat split.
      + rewrite length_app. simpl. lia.
      + apply Forall_app. split; [exact Hall |]. now constructor. }
  assert (Row : forall n w a st, Q n w st ->
            match for_each (int_range (-11) 22)
                    (fun world b => random_scene_cell RAND_MAX world a b) w st
            with
            | inl e => False
            | inr (w', st') => Q (n + 22)%nat w' st'
            end).
  { intros n w a st HQ.
    pose proof (for_each_invariant (fun _ => False) Q
                  (fun world b => random_scene_cell RAND_MAX world a b)
                  (int_range (-11) 22)) as L.
    rewrite int_range_length in L. apply L; [| exact HQ].
    intros k acc i st0 _ HQ0. now apply Cell. }
  pose proof (for_each_invariant (fun _ => False)
                (fun k w st => Q (22 * k)%nat w st)
                (fun world a =>
                   for_each (int_range (-11) 22)
                     (fun world b => random_scene_cell RAND_MAX world a b)
                     world)
                (int_range (-11) 22)) as Grid.
  rewrite int_range_length in Grid.
  specialize (Grid ltac:(intros k acc i st0 _ HQ0;
                         replace (22 * S k)%nat with (22 * k + 22)%nat by lia;
                         now apply Row)).
  specialize (Grid 0%nat [scene_ground] s).
  unfold bind.
  destruct (for_each (int_range (-11) 22)
              (fun world a =>
                 for_each (int_range (-11) 22)
                   (fun world b => random_scene_cell RAND_MAX world a b) world)
              [scene_ground] s) as [e | [w st]].
  - exfalso. apply Grid. split; [exact H |]. exists []. repeat split; auto.
  - destruct Grid as [Hst [small [-> [Hlen Hall]]]].
    { split; [exact H |]. exists []. repeat split; auto. }
    unfold ret, hittable_list_add. exists small, st.
    split; [| split; [simpl in Hlen; lia | split; [exact Hall | split; [| exact Hst]]]].
    + rewrite <- !app_assoc. reflexivity.
    + apply world_ok_objects. constructor.
      * eexists. split; [reflexivity |]. eexists. split; [reflexivity |].
        simpl. unfold color_unit; simpl. lra.
      * apply Forall_app. split.
        -- eapply Forall_impl; [| exact Hall]. apply small_sphere_ok.
        -- repeat constructor.
           ++ eexists. split; [reflexivity |]. eexists.
              split; [reflexivity | exact I].
           ++ eexists. split; [reflexivity |]. eexists.
              split; [reflexivity |]. simpl. unfold color_unit; simpl. lra.
           ++ eexists. split; [reflexivity |]. eexists.
              split; [reflexivity |]. simpl. unfold color_unit; simpl. lra.
Qed.

(** X25.  When [rand()] keeps to [0 .. RAND_MAX], [random_scene] always
    returns: a list that starts with the ground sphere, ends with the three
    large spheres in the order glass, matte, metal, and has between them at
    most 484 small spheres, each of radius 0.2 with its centre at height 0.2
    and more than 0.9 away from (4, 0.2, 0).  Every sphere of the list points
    to a material, and no albedo has a channel outside [[0, 1]]. *)
Theorem random_scene_contract (RAND_MAX : Z) (s : rand_state) :
  rand_in_range RAND_MAX s ->
  exists small s',
    random_scene RAND_MAX s
    = inr (scene_ground :: small ++ [scene_glass; scene_matte; scene_metal],
           s') /\
    (List.length small <= 484)%nat /\
    Forall small_sphere small /\
    world_ok (HList (scene_ground :: small
                     ++ [scene_glass; scene_matte; scene_metal])) /\
    rand_in_range RAND_MAX s'.
Proof.
  intros H.
  destruct (random_scene_objects RAND_MAX s H)
    as (small & s' & E & Hlen & Hsmall & Hw & Hs').
  exists small, s'.
  split; [exact E |]. split; [exact Hlen |]. split; [exact Hsmall |].
  split; [exact Hw | exact Hs'].
Qed.

Lemma random_scene_contract_witness :
  exists small s',
    random_scene rand_max_3 always_one
    = inr (scene_ground :: small ++ [scene_glass; scene_matte; scene_metal],
           s') /\
    (List.length small <= 484)%nat /\
    Forall small_sphere small /\
    world_ok (HList (scene_ground :: small
                     ++ [scene_glass; scene_matte; scene_metal])) /\
    rand_in_range rand_max_3 s'.
Proof.
  apply (random_scene_contract rand_max_3 always_one).
  exact always_one_in_range.
Defined.

(** ** main.cpp: the render loop *)

Lemma get_ray_failure (RAND_MAX : Z) (rounds : nat) (c : camera) (sx ty : R)
    (s : rand_state) (e : failure) :
  get_ray RAND_MAX rounds c sx ty s = inl e -> e = rounds_exhausted.
Proof.
  unfold get_ray. intros H. apply bind_inl in H.
  destruct H as [H | [q [s0 [_ H]]]]; [| discriminate].
  pose proof (random_in_unit_disk_inside RAND_MAX rounds s) as D.
  now rewrite H in D.
Qed.

Lemma write_pixel_byte_triple (pixel_color : color) (samples_per_pixel : Z) :
  byte_triple (write_pixel pixel_color samples_per_pixel).
Proof.
  unfold write_pixel, byte_triple. cbv zeta.
  repeat split; apply static_cast_int_byte; apply clamp_bounds; lra.
Qed.

(** After [k] samples every channel of the running sum lies in
    [[0, k]]. *)
Lemma sample_loop_sum (RAND_MAX : Z) (rounds : nat) (cam : camera)
    (world : hittable) (image_width image_height max_depth i j : Z) :
  world_ok world ->
  forall count k pixel_color s,
    (0 <= e0 pixel_color <= INR k /\ 0 <= e1 pixel_color <= INR k /\
     0 <= e2 pixel_color <= INR k) ->
    match sample_loop RAND_MAX rounds cam world image_width image_height
                      max_depth i j count pixel_color s with
    | inl e => e = rounds_exhausted
    | inr (c, _) =>
        0 <= e0 c <= INR (k + count) /\ 0 <= e1 c <= INR (k + count) /\
        0 <= e2 c <= INR (k + count)
    end.
Proof.
  intros Hw. induction count as [| count IH]; intros k pc s Hpc.
  - simpl. unfold ret. now rewrite Nat.add_0_r.
  - cbn [sample_loop]. unfold bind at 1. rewrite random_double_eq.
    unfold bind at 1. rewrite random_double_eq.
    unfold bind at 1.
    match goal with
    | |- context [get_ray ?a ?b ?c ?d ?e ?f] =>
        destruct (get_ray a b c d e f) as [e0' | [r s1]] eqn:G
    end; [now apply get_ray_failure in G |].
    unfold bind at 1.
    pose proof (ray_color_channels RAND_MAX rounds r world max_depth s1 Hw) as C.
    destruct (ray_color RAND_MAX rounds r world max_depth s1)
      as [e1' | [c s2]]; [exact C |].
    replace (k + S count)%nat with (S k + count)%nat by lia.
    apply IH. rewrite S_INR. unfold color_unit in C.
    unfold vec3_add; simpl. repeat split; lra.
Qed.

(** X26.  In a world as in X22, the sample loop of a pixel ends with a
    colour sum whose channels lie between 0 and the number of samples, the
    condition under which [main] takes square roots, and the triple written
    for the pixel consists of integers of [[0, 255]].  The loop stops
    without a result only when a rejection loop runs out of rounds. *)
Theorem render_pixel_contract (RAND_MAX : Z) (rounds : nat) (cam : camera)
    (world : hittable)
    (image_width image_height samples_per_pixel max_depth i j : Z)
    (s : rand_state) :
  world_ok world ->
  match render_pixel RAND_MAX rounds cam world image_width image_height
                     samples_per_pixel max_depth i j s with
  | inl e => e = rounds_exhausted
  | inr (px, _) =>
      byte_triple px /\
      exists pixel_color,
        px = write_pixel pixel_color samples_per_pixel /\
        0 <= e0 pixel_color <= INR (Z.to_nat samples_per_pixel) /\
        0 <= e1 pixel_color <= INR (Z.to_nat samples_per_pixel) /\
        0 <= e2 pixel_color <= INR (Z.to_nat samples_per_pixel)
  end.
Proof.
  intros Hw. unfold render_pixel, bind.
  pose proof (sample_loop_sum RAND_MAX rounds cam world image_width
                image_height max_depth i j Hw (Z.to_nat samples_per_pixel)
                0%nat (Vec3 0 0 0) s) as L.
  destruct (sample_loop RAND_MAX rounds cam world image_width image_height
              max_depth i j (Z.to_nat samples_per_pixel) (Vec3 0 0 0) s)
    as [e | [pc s']].
  - apply L. simpl. lra.
  - unfold ret. split; [apply write_pixel_byte_triple |].
    exists pc. split; [reflexivity |]. apply L. simpl. lra.
Qed.

Lemma render_pixel_contract_witness :
  match render_pixel rand_max_3 1
                     (camera_new (Vec3 13 2 3) (Vec3 0 0 0) (Vec3 0 1 0) 20
                                 (16 / 9) (1 / 10) 10)
                     twins 4 2 1 1 0 0 always_one with
  | inl e => e = rounds_exhausted
  | inr (px, _) =>
      byte_triple px /\
      exists pixel_color,
        px = write_pixel pixel_color 1 /\
        0 <= e0 pixel_color <= INR (Z.to_nat 1) /\
        0 <= e1 pixel_color <= INR (Z.to_nat 1) /\
        0 <= e2 pixel_color <= INR (Z.to_nat 1)
  end.
Proof.
  apply (render_pixel_contract rand_max_3 1
           (camera_new (Vec3 13 2 3) (Vec3 0 0 0) (Vec3 0 1 0) 20
                       (16 / 9) (1 / 10) 10)
           twins 4 2 1 1 0 0 always_one).
  exact twins_world_ok.
Defined.

Lemma render_pixel_bytes (RAND_MAX : Z) (rounds : nat) (cam : camera)
    (world : hittable)
    (image_width image_height samples_per_pixel max_depth i j : Z)
    (s : rand_state) :
  world_ok world ->
  match render_pixel RAND_MAX rounds cam world image_width image_height
                     samples_per_pixel max_depth i j s with
  | inl e => e = rounds_exhausted
  | inr (px, _) => byte_triple px
  end.
Proof.
  intros Hw. unfold render_pixel, bind.
  pose proof (sample_loop_sum RAND_MAX rounds cam world image_width
                image_height max_depth i j Hw (Z.to_nat samples_per_pixel)
                0%nat (Vec3 0 0 0) s) as L.
  destruct (sample_loop RAND_MAX rounds cam world image_width image_height
              max_depth i j (Z.to_nat samples_per_pixel) (Vec3 0 0 0) s)
    as [e | [pc s']].
  - apply L. simpl. lra.
  - unfold ret. apply write_pixel_byte_triple.
Qed.

Lemma render_image (RAND_MAX : Z) (rounds : nat) (cam : camera)
    (world : hittable)
    (image_width image_height samples_per_pixel max_depth : Z)
    (s : rand_state) :
  world_ok world ->
  match render RAND_MAX rounds cam world image_width image_height
               samples_per_pixel max_depth s with
  | inl e => e = rounds_exhausted
  | inr (pixels, _) =>
      List.length pixels
      = (Z.to_nat image_width * Z.to_nat image_height)%nat /\
      Forall byte_triple pixels
  end.
Proof.
  intros Hw. unfold render.
  set (W := Z.to_nat image_width). set (H := Z.to_nat image_height).
  set (Q := fun (n : nat) (out : list (Z * Z * Z)) (st : rand_state) =>
              List.length out = n /\ Forall byte_triple out).
  assert (Row : forall n out j st, Q n out st ->
    match for_each (int_range 0 W)
            (fun out i =>
               px <- render_pixel RAND_MAX rounds cam world image_width
                                  image_height samples_per_pixel max_depth i j ;;
               ret (out ++ [px])) out st
    with
    | inl e => e = rounds_exhausted
    | inr (out', st') => Q (n + W)%nat out' st'
    end).
  { intros n out j st HQ.
    pose proof (for_each_invariant (fun e => e = rounds_exhausted) Q
                  (fun out i =>
                     px <- render_pixel RAND_MAX rounds cam world image_width
                             image_height samples_per_pixel max_depth i j ;;
                     ret (out ++ [px]))
                  (int_range 0 W)) as L.
    rewrite int_range_length in L. apply L; [| exact HQ].
    intros k acc i st0 _ [Hlen Hall]. unfold bind.
    pose proof (render_pixel_bytes RAND_MAX rounds cam world image_width
                  image_height samples_per_pixel max_depth i j st0 Hw) as P.
    destruct (render_pixel RAND_MAX rounds cam world image_width image_height
                samples_per_pixel max_depth i j st0) as [e | [px st1]];
      [exact P |].
    unfold ret. split.
    - rewrite length_app. simpl. lia.
    - apply Forall_app. split; [exact Hall | now constructor]. }
  pose proof (for_each_invariant (fun e => e = rounds_exhausted)
                (fun k out st => Q (W * k)%nat out st)
                (fun out j =>
                   for_each (int_range 0 W)
                     (fun out i =>
                        px <- render_pixel RAND_MAX rounds cam world
                                image_width image_height samples_per_pixel
                                max_depth i j ;;
                        ret (out ++ [px])) out)
                (rev (int_range 0 H))) as Grid.
  rewrite length_rev, int_range_length in Grid.
  specialize (Grid ltac:(intros k acc j st0 _ HQ0;
                         replace (W * S k)%nat with (W * k + W)%nat by lia;
                         now apply Row)).
  specialize (Grid 0%nat [] s).
  replace (W * 0)%nat with 0%nat in Grid by lia. simpl plus in Grid.
  apply Grid. split; [reflexivity | constructor].
Qed.

(** X27.  In a world as in X22, the two loops of [main] write exactly
    [image_width * image_height] triples, each of integers of [[0, 255]],
    as the header of the image announces; they stop early only when a
    rejection loop runs out of rounds. *)
Theorem render_contract (RAND_MAX : Z) (rounds : nat) (cam : camera)
    (world : hittable)
    (image_width image_height samples_per_pixel max_depth : Z)
    (s : rand_state) :
  world_ok world ->
  match render RAND_MAX rounds cam world image_width image_height
               samples_per_pixel max_depth s with
  | inl e => e = rounds_exhausted
  | inr (pixels, _) =>
      List.length pixels
      = (Z.to_nat image_width * Z.to_nat image_height)%nat /\
      Forall byte_triple pixels
  end.
Proof.
  intros Hw.
  pose proof (render_image RAND_MAX rounds cam world image_width image_height
                samples_per_pixel max_depth s Hw) as R.
  destruct (render RAND_MAX rounds cam world image_width image_height
              samples_per_pixel max_depth s) as [e | [pixels s']]; exact R.
Qed.

Lemma render_contract_witness :
  match render rand_max_3 1
               (camera_new (Vec3 13 2 3) (Vec3 0 0 0) (Vec3 0 1 0) 20
                           (16 / 9) (1 / 10) 10)
               twins 4 2 1 1 always_one with
  | inl e => e = rounds_exhausted
  | inr (pixels, _) =>
      List.length pixels = (Z.to_nat 4 * Z.to_nat 2)%nat /\
      Forall byte_triple pixels
  end.
Proof.
  apply (render_contract rand_max_3 1
           (camera_new (Vec3 13 2 3) (Vec3 0 0 0) (Vec3 0 1 0) 20
                       (16 / 9) (1 / 10) 10)
           twins 4 2 1 1 always_one).
  exact twins_world_ok.
Defined.

Lemma image_height_225 : static_cast_int (IZR 400 / (16 / 9)) = 225%Z.
Proof.
  rewrite static_cast_int_nonneg by lra.
  pose proof (Int_part_bounds (IZR 400 / (16 / 9)) 225 225) as B.
  simpl in B. assert (225 <= Int_part (IZR 400 / (16 / 9)) <= 225)%Z
    by (apply B; lra).
  lia.
Qed.

(** X28.  When [rand()] keeps to [0 .. RAND_MAX], [main] builds its scene
    and camera and writes 400 x 225 = 90000 triples of integers of
    [[0, 255]]; it stops early only when a rejection loop runs out of
    rounds, and never on a null material. *)
Theorem main_pixels_contract (RAND_MAX : Z) (rounds : nat) (s : rand_state) :
  rand_in_range RAND_MAX s ->
  match main_pixels RAND_MAX rounds s with
  | inl e => e = rounds_exhausted
  | inr (pixels, _) =>
      Z.of_nat (List.length pixels) = (400 * 225)%Z /\
      Forall byte_triple pixels
  end.
Proof.
  intros H. unfold main_pixels. cbv zeta. unfold bind.
  destruct (random_scene_objects RAND_MAX s H)
    as (small & s' & -> & _ & _ & Hw & _).
  rewrite image_height_225.
  pose proof (render_image RAND_MAX rounds
                (camera_new (Vec3 13 2 3) (Vec3 0 0 0) (Vec3 0 1 0) 20
                            (16 / 9) (1 / 10) 10)
                (HList (scene_ground :: small
                        ++ [scene_glass; scene_matte; scene_metal]))
                400 225 10 50 s' Hw) as R.
  destruct (render RAND_MAX rounds
              (camera_new (Vec3 13 2 3) (Vec3 0 0 0) (Vec3 0 1 0) 20
                          (16 / 9) (1 / 10) 10)
              (HList (scene_ground :: small
                      ++ [scene_glass; scene_matte; scene_metal]))
              400 225 10 50 s') as [e | [pixels s'']]; [exact R |].
  destruct R as [Hlen Hall]. split; [| exact Hall].
  rewrite Hlen, Nat2Z.inj_mul, !Z2Nat.id by lia. reflexivity.
Qed.

(** ** [near_zero] and the direction a diffuse surface hands on *)





(** ** A run of [main] that reaches the image *)

(** With [RAND_MAX = 3] and [rand()] always 1, every draw is 1/4, the
    first candidate of each rejection loop is accepted, and one round per
    loop is enough. *)

Lemma steady_ret {A : Type} (a : A) : steady (ret a).
Proof. exists a. reflexivity. Qed.

Lemma steady_bind {A B : Type} (c : M A) (k : A -> M B) :
  steady c -> (forall a, steady (k a)) -> steady (bind c k).
Proof.
  intros [a Ha] Hk. destruct (Hk a) as [b Hb]. exists b.
  unfold bind. now rewrite Ha.
Qed.

Lemma steady_bind_at {A B : Type} (c : M A) (k : A -> M B) (a : A) :
  c always_one = inr (a, always_one) -> steady (k a) -> steady (bind c k).
Proof.
  intros Ha [b Hb]. exists b. unfold bind. now rewrite Ha.
Qed.

Lemma steady_random_double : steady (random_double rand_max_3).
Proof. eexists. apply always_one_double. Qed.

Lemma steady_random_double_range (lo hi : R) :
  steady (random_double_range rand_max_3 lo hi).
Proof. eexists. apply always_one_range. Qed.

Lemma steady_vec3_random : steady (vec3_random rand_max_3).
Proof.
  unfold vec3_random.
  repeat (apply steady_bind; [apply steady_random_double | intros ?]).
  apply steady_ret.
Qed.

Lemma steady_vec3_random_range (lo hi : R) :
  steady (vec3_random_range rand_max_3 lo hi).
Proof.
  unfold vec3_random_range.
  repeat (apply steady_bind; [apply steady_random_double_range | intros ?]).
  apply steady_ret.
Qed.

Lemma steady_random_in_unit_sphere :
  steady (random_in_unit_sphere rand_max_3 1).
Proof. eexists. apply always_one_sphere. Qed.

Lemma steady_random_in_unit_disk : steady (random_in_unit_disk rand_max_3 1).
Proof.
  cbn [random_in_unit_disk]. unfold steady, bind.
  rewrite !always_one_range.
  assert (E : ltb (length_squared
                     (Vec3 (-1 + (1 - -1) * (1 / (3 + 1)))
                           (-1 + (1 - -1) * (1 / (3 + 1))) 0)) 1 = true).
  { apply ltb_true. unfold length_squared; simpl. lra. }
  rewrite E. simpl. eexists. reflexivity.
Qed.

Lemma steady_scatter (m : material) r_in rec attenuation scattered :
  steady (scatter rand_max_3 1 m r_in rec attenuation scattered).
Proof.
  destruct m as [l | l | l]; simpl.
  - unfold lambertian_scatter, random_unit_vector.
    apply steady_bind; [| intros; apply steady_ret].
    apply steady_bind; [apply steady_random_in_unit_sphere |].
    intros; apply steady_ret.
  - unfold metal_scatter.
    apply steady_bind; [apply steady_random_in_unit_sphere |].
    intros; apply steady_ret.
  - unfold dielectric_scatter.
    apply steady_bind; [| intros; apply steady_ret].
    match goal with |- steady (if ?c then _ else _) => destruct c end.
    + apply steady_ret.
    + apply steady_bind; [apply steady_random_double |].
      intros; apply steady_ret.
Qed.

Lemma steady_ray_color_rec (world : hittable) :
  world_ok world ->
  forall n r depth,
    (depth <= Z.of_nat n)%Z ->
    steady (ray_color_rec rand_max_3 n 1 r world depth).
Proof.
  intros Hw. unfold world_ok in Hw. rewrite Forall_forall in Hw.
  induction n as [| n IH]; intros r depth Hd.
  - cbn [ray_color_rec].
    assert (E : (depth <=? 0)%Z = true) by (apply Z.leb_le; lia).
    rewrite E. apply steady_ret.
  - cbn [ray_color_rec].
    destruct (depth <=? 0)%Z eqn:E; [apply steady_ret |].
    destruct (hit world r (1 / 1000) infinity hit_record_default)
      as [[|] rec] eqn:Hh; [| apply steady_ret].
    destruct (hit_material _ _ _ _ _ _ Hh) as [sp [Hin Hm]].
    destruct (Hw sp Hin) as [m [Hsome _]].
    rewrite Hm, Hsome.
    apply steady_bind; [apply steady_scatter |].
    intros [[b att] sc]. destruct b; [| apply steady_ret].
    apply steady_bind; [| intros; apply steady_ret].
    apply IH. lia.
Qed.

Lemma steady_ray_color (world : hittable) (r : ray) (depth : Z) :
  world_ok world -> steady (ray_color rand_max_3 1 r world depth).
Proof.
  intros Hw. unfold ray_color. apply steady_ray_color_rec; [exact Hw | lia].
Qed.

Lemma steady_get_ray (c : camera) (sx ty : R) :
  steady (get_ray rand_max_3 1 c sx ty).
Proof.
  unfold get_ray. apply steady_bind; [apply steady_random_in_unit_disk |].
  intros; apply steady_ret.
Qed.

Lemma steady_sample_loop (cam : camera) (world : hittable)
    (image_width image_height max_depth i j : Z) :
  world_ok world ->
  forall count pixel_color,
    steady (sample_loop rand_max_3 1 cam world image_width image_height
                        max_depth i j count pixel_color).
Proof.
  intros Hw. induction count as [| count IH]; intros pc.
  - apply steady_ret.
  - cbn [sample_loop].
    apply steady_bind; [apply steady_random_double | intros du].
    apply steady_bind; [apply steady_random_double | intros dv].
    apply steady_bind; [apply steady_get_ray | intros r].
    apply steady_bind; [now apply steady_ray_color | intros c].
    apply IH.
Qed.

Lemma steady_for_each {A : Type} (body : A -> Z -> M A) (indices : list Z) :
  (forall acc i, steady (body acc i)) ->
  forall acc, steady (for_each indices body acc).
Proof.
  intros Hb. induction indices as [| i rest IH]; intros acc; simpl.
  - apply steady_ret.
  - apply steady_bind; [apply Hb | exact IH].
Qed.

Lemma steady_render (cam : camera) (world : hittable)
    (image_width image_height samples_per_pixel max_depth : Z) :
  world_ok world ->
  steady (render rand_max_3 1 cam world image_width image_height
                 samples_per_pixel max_depth).
Proof.
  intros Hw. unfold render.
  apply steady_for_each. intros out j.
  apply steady_for_each. intros out' i.
  apply steady_bind; [| intros; apply steady_ret].
  unfold render_pixel.
  apply steady_bind; [now apply steady_sample_loop |].
  intros; apply steady_ret.
Qed.

Lemma steady_random_scene_cell (world : list hittable) (a b : Z) :
  steady (random_scene_cell rand_max_3 world a b).
Proof.
  unfold random_scene_cell.
  apply steady_bind; [apply steady_random_double | intros cm].
  apply steady_bind; [apply steady_random_double | intros cx].
  apply steady_bind; [apply steady_random_double | intros cz].
  match goal with |- steady (if ?c then _ else _) => destruct c end;
    [| apply steady_ret].
  destruct (ltb cm (4 / 5)).
  - apply steady_bind; [apply steady_vec3_random | intros c1].
    apply steady_bind; [apply steady_vec3_random | intros c2].
    apply steady_ret.
  - destruct (ltb cm (19 / 20)); [| apply steady_ret].
    apply steady_bind; [apply steady_vec3_random_range | intros al].
    apply steady_bind; [apply steady_random_double_range | intros fz].
    apply steady_ret.
Qed.

Lemma steady_random_scene : steady (random_scene rand_max_3).
Proof.
  unfold random_scene. cbv zeta.
  apply steady_bind; [| intros; apply steady_ret].
  apply steady_for_each. intros w a.
  apply steady_for_each. intros w' b.
  apply steady_random_scene_cell.
Qed.

(** On this stream and with one round per rejection loop, [main] runs
    through: it returns the triples of the whole image. *)
Lemma main_pixels_returns :
  exists pixels, main_pixels rand_max_3 1 always_one = inr (pixels, always_one).
Proof.
  destruct steady_random_scene as [world Hworld].
  destruct (random_scene_objects rand_max_3 always_one always_one_in_range)
    as (small & s' & E & _ & _ & Hw & _).
  rewrite Hworld in E. injection E as -> _.
  change (steady (main_pixels rand_max_3 1)).
  unfold main_pixels. cbv zeta.
  apply steady_bind_at with (a := scene_ground :: small
                                  ++ [scene_glass; scene_matte; scene_metal]);
    [exact Hworld |].
  now apply steady_render.
Qed.

Lemma main_pixels_contract_witness :
  exists pixels s',
    main_pixels rand_max_3 1 always_one = inr (pixels, s') /\
    Z.of_nat (List.length pixels) = (400 * 225)%Z /\
    Forall byte_triple pixels.
Proof.
  pose proof (main_pixels_contract rand_max_3 1 always_one
                always_one_in_range) as H.
  destruct main_pixels_returns as [pixels E]. rewrite E in H.
  exists pixels, always_one. split; [exact E | exact H].
Defined.
